(** * go-header: the height subscription primitive and the peer tracker

    A shallow embedding of [store/heightsub.go] and [p2p/peer_tracker.go],
    with the properties their specification states about them.

    Conventions of the embedding:
    - a [uint64] is a [Z], with the wrap-around of the Go arithmetic
      written out ([to_uint64]);
    - a Go [map] is a [gmap]; a [range] over a map visits its entries in an
      unspecified order, so every loop over a map takes the order of the
      visit as a list, and the properties are proved for every order;
    - a channel is the index of its buffer in a store of buffers;
    - the code a call runs under a mutex is one function; what a call does
      before it takes the mutex and what it does under it are separate
      functions where another call can run in between ([Sub] before and at
      its [select], [Pub] before and after [heightReqsLk.Lock()]). *)

From Stdlib Require Import ZArith Lia SpecFloat.
From stdpp Require Import gmap strings list fin_maps.

Local Open Scope Z_scope.

(** [l] is an order in which a [range] can visit the entries of [m]. *)
Definition visit_of `{Countable K} {V} (l : list (K * V)) (m : gmap K V) : Prop :=
  l ≡ₚ map_to_list m.

(** ** Package [store]: heightSub *)
Module store.

(** Conversion to [uint64], as in [uint64(headers[0].Height())]. *)
Definition to_uint64 (z : Z) : Z := z mod 2 ^ 64.

Definition is_uint64 (z : Z) : Prop := 0 ≤ z < 2 ^ 64.

(** A channel made by [make(chan H, 1)]: the index of its buffer. *)
Definition chan : Type := nat.

(** The errors [Sub] can return: [errElapsedHeight], or [ctx.Err()]. *)
Inductive error : Type :=
  | errElapsedHeight
  | ctx_Err.

(** How a call of [Pub] ends.  [Pub_fatal] is the [log.Fatal] of the
    ordering check; [Pub_panic] is an index out of range in
    [headers[height-from]]; [Pub_blocked] is a send on a channel whose one
    slot is taken, which never completes in the single publisher. *)
Inductive Pub_result : Type :=
  | Pub_returned
  | Pub_fatal
  | Pub_panic
  | Pub_blocked.

Section heightSub.
(** The header type [H] and its [Height()] accessor are declared outside
    the files of this development: they are parameters. *)
Context {H : Type}.
Variable header_Height : H → Z.

(** [heightSub] together with the buffers of the channels made so far. *)
Record heightSub : Type := mkHeightSub {
  height : Z;
  heightReqs : gmap Z (list chan);
  chans : list (list H)
}.

Definition newHeightSub : heightSub :=
  {| height := 0; heightReqs := ∅; chans := [] |}.

Definition Height (hs : heightSub) : Z := height hs.

Definition SetHeight (h : Z) (hs : heightSub) : heightSub :=
  {| height := h; heightReqs := heightReqs hs; chans := chans hs |}.

(** *** Sub *)

(** Where a call of [Sub] stands once its prefix has run: parked at the
    [select] on its own channel, or returned. *)
Inductive Sub_status : Type :=
  | Sub_at_select (resp : chan)
  | Sub_returned (r : H + error).

(** [hs.heightReqs[height]] of a missing key is the nil slice. *)
Definition bucket (m : gmap Z (list chan)) (k : Z) : list chan :=
  default [] (m !! k).

(** Lines 45-60: the two checks and the registration. *)
Definition Sub_enter (h : Z) (hs : heightSub) : Sub_status * heightSub :=
  if decide (h ≤ Height hs) then (Sub_returned (inr errElapsedHeight), hs)
  else
    (* heightReqsLk.Lock() *)
    if decide (h ≤ Height hs) then (Sub_returned (inr errElapsedHeight), hs)
    else
      let resp := length (chans hs) in
      (Sub_at_select resp,
       {| height := height hs;
          heightReqs := <[h := bucket (heightReqs hs) h ++ [resp]]> (heightReqs hs);
          chans := chans hs ++ [[]] |}).

(** Lines 63-64: the [select] takes the published header from [resp];
    [None] while the channel is empty. *)
Definition Sub_select_resp (resp : chan) (hs : heightSub)
  : option (Sub_status * heightSub) :=
  match chans hs !! resp with
  | Some (v :: rest) =>
      Some (Sub_returned (inl v),
            {| height := height hs; heightReqs := heightReqs hs;
               chans := <[resp := rest]> (chans hs) |})
  | _ => None
  end.

(** Lines 65-70: the [select] takes [ctx.Done()]. *)
Definition Sub_select_done (h : Z) (hs : heightSub) : Sub_status * heightSub :=
  (Sub_returned (inr ctx_Err),
   {| height := height hs;
      heightReqs := delete h (heightReqs hs);
      chans := chans hs |}).

(** *** Pub *)

(** [req <- h] on a channel of capacity one. *)
Definition send (req : chan) (h : H) (μ : list (list H)) : option (list (list H)) :=
  match μ !! req with
  | Some buf => if decide (length buf < 1)%nat then Some (<[req := buf ++ [h]]> μ) else None
  | None => None
  end.

(** [for _, req := range reqs { req <- h }] *)
Fixpoint send_all (reqs : list chan) (h : H) (μ : list (list H))
  : option (list (list H)) :=
  match reqs with
  | [] => Some μ
  | req :: reqs' =>
      match send req h μ with
      | Some μ' => send_all reqs' h μ'
      | None => None
      end
  end.

(** Lines 111-121: the loop over the pending buckets, visited in the
    order [l].  When the loop stops on a panic or on a send that blocks,
    the maps given back are those it had on reaching that bucket. *)
Fixpoint Pub_range (l : list (Z * list chan)) (headers : list H) (from to : Z)
    (m : gmap Z (list chan)) (μ : list (list H))
  : Pub_result * (gmap Z (list chan) * list (list H)) :=
  match l with
  | [] => (Pub_returned, (m, μ))
  | (k, reqs) :: l' =>
      if decide (from ≤ k ∧ k ≤ to) then
        match headers !! Z.to_nat (k - from) with
        | Some h =>
            match send_all reqs h μ with
            | Some μ' => Pub_range l' headers from to (delete k m) μ'
            | None => (Pub_blocked, (m, μ))
            end
        | None => (Pub_panic, (m, μ))
        end
      else Pub_range l' headers from to m μ
  end.

Definition Pub_with (l : list (Z * list chan)) (headers : list H) (hs : heightSub)
  : Pub_result * heightSub :=
  match headers with
  | [] => (Pub_returned, hs)
  | h0 :: _ =>
      let ln := length headers in
      let from := to_uint64 (header_Height h0) in
      let to := to_uint64 (header_Height (List.last headers h0)) in
      if decide (to_uint64 (Height hs + 1) ≠ from) then (Pub_fatal, hs)
      else
        let hs := SetHeight to hs in
        if decide (ln = 1%nat) then
          match heightReqs hs !! from with
          | Some reqs =>
              match send_all reqs h0 (chans hs) with
              | Some μ' =>
                  (Pub_returned,
                   {| height := height hs;
                      heightReqs := delete from (heightReqs hs);
                      chans := μ' |})
              | None => (Pub_blocked, hs)
              end
          | None => (Pub_returned, hs)
          end
        else
          let '(r, (m', μ')) :=
            Pub_range l headers from to (heightReqs hs) (chans hs) in
          (r, {| height := height hs; heightReqs := m'; chans := μ' |})
  end.

(** [Pub] with the order in which [gmap] lists the entries. *)
Definition Pub (headers : list H) (hs : heightSub) : Pub_result * heightSub :=
  Pub_with (map_to_list (heightReqs hs)) headers hs.

(** [Pub] takes [heightReqsLk] only after it has stored the new height, so
    a [Sub] can run between the two halves of a call.  Lines 79-90, up to
    and with [SetHeight]: the result when the call ends there, or [from],
    [to] and the state with the new height. *)
Definition Pub_advance (headers : list H) (hs : heightSub)
  : Pub_result + (Z * Z * heightSub) :=
  match headers with
  | [] => inl Pub_returned
  | h0 :: _ =>
      let from := to_uint64 (header_Height h0) in
      let to := to_uint64 (header_Height (List.last headers h0)) in
      if decide (to_uint64 (Height hs + 1) ≠ from) then inl Pub_fatal
      else inr (from, to, SetHeight to hs)
  end.

(** Lines 92-121: the part of [Pub] under [heightReqsLk]. *)
Definition Pub_locked (l : list (Z * list chan)) (headers : list H) (from to : Z)
    (hs : heightSub) : Pub_result * heightSub :=
  match headers with
  | [] => (Pub_returned, hs)
  | h0 :: _ =>
      if decide (length headers = 1%nat) then
        match heightReqs hs !! from with
        | Some reqs =>
            match send_all reqs h0 (chans hs) with
            | Some μ' =>
                (Pub_returned,
                 {| height := height hs;
                    heightReqs := delete from (heightReqs hs);
                    chans := μ' |})
            | None => (Pub_blocked, hs)
            end
        | None => (Pub_returned, hs)
        end
      else
        let '(r, (m', μ')) :=
          Pub_range l headers from to (heightReqs hs) (chans hs) in
        (r, {| height := height hs; heightReqs := m'; chans := μ' |})
  end.

(** The steps callers of [Sub] can take while a [Pub] is between its two
    halves. *)
Inductive Sub_steps (hs : heightSub) : heightSub → Prop :=
  | Sub_steps_refl : Sub_steps hs hs
  | Sub_steps_enter h hs' :
      Sub_steps hs hs' → Sub_steps hs (Sub_enter h hs').2
  | Sub_steps_resp resp hs' st hs'' :
      Sub_steps hs hs' → Sub_select_resp resp hs' = Some (st, hs'') →
      Sub_steps hs hs''
  | Sub_steps_done h hs' :
      Sub_steps hs hs' → Sub_steps hs (Sub_select_done h hs').2.

(** *** Invariants and preconditions *)

(** Every pending height is above the current height. *)
Definition keys_above_height (hs : heightSub) : Prop :=
  ∀ k reqs, heightReqs hs !! k = Some reqs → height hs < k.

(** The channels of the buckets visited in the order [l]. *)
Definition pending_chans (l : list (Z * list chan)) : list chan := mjoin l.*2.

(** Every registered channel is registered once and its slot is free. *)
Definition chans_wf (hs : heightSub) : Prop :=
  NoDup (pending_chans (map_to_list (heightReqs hs)))
  ∧ Forall (λ c, chans hs !! c = Some []) (pending_chans (map_to_list (heightReqs hs))).

#[global] Instance keys_above_height_dec hs : Decision (keys_above_height hs).
Proof.
  exact (decide (map_Forall (λ k _, height hs < k) (heightReqs hs))).
Defined.

#[global] Instance chans_wf_dec hs : Decision (chans_wf hs).
Proof.
  unfold chans_wf. apply and_dec; [apply NoDup_dec|].
  apply Forall_dec. intros c.
  destruct (chans hs !! c) as [[|v buf]|]; [by left|by right|by right].
Defined.

(** The heights of [headers] are [from], [from+1], ... without a gap. *)
Definition contiguous (headers : list H) (from : Z) : Prop :=
  ∀ i h, headers !! i = Some h → to_uint64 (header_Height h) = from + Z.of_nat i.

(** The states the operations of [heightSub] other than [SetHeight] reach
    from a state [hs0]. *)
Inductive hs_reachable (hs0 : heightSub) : heightSub → Prop :=
  | hs_reach_init : hs_reachable hs0 hs0
  | hs_reach_enter h hs :
      hs_reachable hs0 hs → hs_reachable hs0 (Sub_enter h hs).2
  | hs_reach_resp resp hs st hs' :
      hs_reachable hs0 hs → Sub_select_resp resp hs = Some (st, hs') →
      hs_reachable hs0 hs'
  | hs_reach_done h hs :
      hs_reachable hs0 hs → hs_reachable hs0 (Sub_select_done h hs).2
  | hs_reach_pub l headers hs r hs' :
      hs_reachable hs0 hs → visit_of l (heightReqs hs) →
      Pub_with l headers hs = (r, hs') → r = Pub_returned ∨ r = Pub_fatal →
      hs_reachable hs0 hs'.

End heightSub.

Arguments heightSub : clear implicits.

(** A run with headers that are their own height: two callers wait for
    height 5, the second one cancels, then heights 1 to 5 are published. *)
Module two_waiters.
Definition hs0 : heightSub Z := newHeightSub.
Definition first := Sub_enter 5 hs0.
Definition second := Sub_enter 5 first.2.
Definition cancelled := Sub_select_done 5 second.2.
Definition published := Pub (λ h : Z, h) [1; 2; 3; 4; 5] cancelled.2.
End two_waiters.

(** A state with waiters at heights 2 (two of them), 3 and 9. *)
Module range_waiters.
Definition hs0 : heightSub Z := newHeightSub.
Definition hs : heightSub Z :=
  (Sub_enter 9 (Sub_enter 3 (Sub_enter 2 (Sub_enter 2 hs0).2).2).2).2.
Definition headers : list Z := [1; 2; 3; 4].
End range_waiters.

(** A [Pub] of heights 11 and 12 to the state of [one_waiter] where 11 is
    awaited; between its two halves a caller asks for 12 and one for 13. *)
Module interleaved.
Definition hs1 : heightSub Z := SetHeight 12 (Sub_enter 11 (SetHeight 10 newHeightSub)).2.
Definition hs2 : heightSub Z := (Sub_enter 13 (Sub_enter 12 hs1).2).2.
End interleaved.

(** A run where height 11 is awaited and published after [SetHeight(10)]. *)
Module one_waiter.
Definition hs0 : heightSub Z := SetHeight 10 newHeightSub.
Definition waiting := Sub_enter 11 hs0.
Definition published := Pub (λ h : Z, h) [11] waiting.2.
End one_waiter.

End store.

(** ** Package [p2p]: PeerTracker *)
Module p2p.

(** [peer.ID] is a Go string. *)
Definition peer_ID : Type := string.

(** A [float32]: an IEEE 754 value in the representation of the Standard
    Library, canonical for 24 bits of mantissa and exponents below 128. *)
Definition float32 : Type := spec_float.

Definition is_float32 (f : float32) : Prop := valid_binary 24 128 f = true.

(** [defaultScore float32 = 1] *)
Definition defaultScore : float32 := S754_finite false 8388608 (-23).

(** [maxPeerTrackerSize = 100] *)
Definition maxPeerTrackerSize : nat := 100.

(** A [time.Time]: nanoseconds elapsed since the zero value of the type. *)
Definition time_Time : Type := Z.

Definition zero_time : time_Time := 0.

(** [maxAwaitingTime = time.Hour] *)
Definition maxAwaitingTime : Z := 3600 * 1000000000.

(** [t.Before(u)] *)
Definition Before (t u : time_Time) : Prop := t < u.

(** Modelled from the spec: the declaration of [peerStat] is in a file
    that is not part of this development; the spec gives it as
    [{peerID, score: float, pruneDeadline: timestamp}], and the code reads
    and writes the fields [peerID], [peerScore] and [pruneDeadline]. *)
Record peerStat : Type := mkPeerStat {
  peerID : peer_ID;
  peerScore : float32;
  pruneDeadline : time_Time
}.

#[global] Instance spec_float_eq_dec : EqDecision spec_float.
Proof. solve_decision. Defined.

#[global] Instance peerStat_eq_dec : EqDecision peerStat.
Proof. solve_decision. Defined.

(** What [connected] reads of the libp2p host: its own identity, and for
    every peer the [Stat().Transient] flag of each open connection. *)
Record host : Type := mkHost {
  host_ID : peer_ID;
  ConnsToPeer : peer_ID → list bool
}.

(** The tracker.  A [PeerIDStore], when there is one, is represented by
    the arguments of the [Put] calls it has received. *)
Record PeerTracker : Type := mkPeerTracker {
  trackedPeers : gmap peer_ID peerStat;
  disconnectedPeers : gmap peer_ID peerStat;
  pidstore : option (list (list peer_ID))
}.

Definition NewPeerTracker (store : option (list (list peer_ID))) : PeerTracker :=
  {| trackedPeers := ∅; disconnectedPeers := ∅; pidstore := store |}.

(** The guard of lines 136-137. *)
Definition overfilled (p : PeerTracker) : Prop :=
  (maxPeerTrackerSize < size (trackedPeers p) + size (disconnectedPeers p))%nat
  ∧ (size (disconnectedPeers p) < size (trackedPeers p))%nat.

#[global] Instance overfilled_dec p : Decision (overfilled p).
Proof. unfold overfilled. apply _. Defined.

Definition connected (h : host) (pID : peer_ID) (p : PeerTracker) : PeerTracker :=
  if decide (host_ID h = pID) then p
  else if existsb (λ transient : bool, transient) (ConnsToPeer h pID) then p
  else if decide (overfilled p) then p
  else
    match disconnectedPeers p !! pID with
    | None =>
        let stats := {| peerID := pID; peerScore := defaultScore;
                        pruneDeadline := zero_time |} in
        {| trackedPeers := <[pID := stats]> (trackedPeers p);
           disconnectedPeers := disconnectedPeers p;
           pidstore := pidstore p |}
    | Some stats =>
        {| trackedPeers := <[pID := stats]> (trackedPeers p);
           disconnectedPeers := delete pID (disconnectedPeers p);
           pidstore := pidstore p |}
    end.

(** [now] is the value of [time.Now()] in the call. *)
Definition disconnected (now : time_Time) (pID : peer_ID) (p : PeerTracker)
  : PeerTracker :=
  match trackedPeers p !! pID with
  | None => p
  | Some stats =>
      let stats := {| peerID := peerID stats; peerScore := peerScore stats;
                      pruneDeadline := now + maxAwaitingTime |} in
      {| trackedPeers := delete pID (trackedPeers p);
         disconnectedPeers := <[pID := stats]> (disconnectedPeers p);
         pidstore := pidstore p |}
  end.

(** [peers()]: the tracked stats, in the order [l] of the visit. *)
Definition peers_with (l : list (peer_ID * peerStat)) : list peerStat := l.*2.

Definition peers (p : PeerTracker) : list peerStat :=
  peers_with (map_to_list (trackedPeers p)).

(** Lines 189-193: the sweep of [disconnectedPeers], visited in order [l]. *)
Fixpoint gc_disconnected (l : list (peer_ID * peerStat)) (now : time_Time)
    (m : gmap peer_ID peerStat) : gmap peer_ID peerStat :=
  match l with
  | [] => m
  | (id, peer) :: l' =>
      if decide (Before (pruneDeadline peer) now)
      then gc_disconnected l' now (delete id m)
      else gc_disconnected l' now m
  end.

(** Lines 196-203: the sweep of [trackedPeers], visited in order [l];
    [ids] is the slice [trackedPeers] of the survivors. *)
Fixpoint gc_tracked (l : list (peer_ID * peerStat)) (m : gmap peer_ID peerStat)
    (ids : list peer_ID) : gmap peer_ID peerStat * list peer_ID :=
  match l with
  | [] => (m, ids)
  | (id, peer) :: l' =>
      if SFleb (peerScore peer) defaultScore
      then gc_tracked l' (delete id m) ids
      else gc_tracked l' m (ids ++ [id])
  end.

Definition persistPeers (ids : list peer_ID) (p : PeerTracker) : PeerTracker :=
  match pidstore p with
  | None => p
  | Some puts =>
      {| trackedPeers := trackedPeers p;
         disconnectedPeers := disconnectedPeers p;
         pidstore := Some (puts ++ [ids]) |}
  end.

(** One cycle of [gc] (the [ticker.C] case), the two maps visited in the
    orders [ld] and [lt]. *)
Definition gc_cycle_with (ld lt : list (peer_ID * peerStat)) (now : time_Time)
    (p : PeerTracker) : PeerTracker :=
  let d := gc_disconnected ld now (disconnectedPeers p) in
  let '(t, ids) := gc_tracked lt (trackedPeers p) [] in
  persistPeers ids
    {| trackedPeers := t; disconnectedPeers := d; pidstore := pidstore p |}.

Definition gc_cycle (now : time_Time) (p : PeerTracker) : PeerTracker :=
  gc_cycle_with (map_to_list (disconnectedPeers p))
                (map_to_list (trackedPeers p)) now p.

(** [blockPeer]; [block_err] and [close_err] are what [connGater.BlockPeer]
    and [ClosePeer] return, which the code only logs. *)
Definition blockPeer (block_err close_err : option string) (pID : peer_ID)
    (p : PeerTracker) : list string * PeerTracker :=
  let log1 := match block_err with
              | Some _ => ["header/p2p: blocking peer failed"%string]
              | None => []
              end in
  let log2 := match close_err with
              | Some _ => ["header/p2p: closing connection with peer failed"%string]
              | None => []
              end in
  (log1 ++ log2 ++ ["header/p2p: blocked peer"%string],
   {| trackedPeers := delete pID (trackedPeers p);
      disconnectedPeers := delete pID (disconnectedPeers p);
      pidstore := pidstore p |}).

(** *** Invariants and runs *)

(** No peer is in both maps. *)
Definition peers_disjoint (p : PeerTracker) : Prop :=
  trackedPeers p ##ₘ disconnectedPeers p.

(** The test of line 198. *)
Definition at_or_below_default (peer : peerStat) : Prop :=
  SFleb (peerScore peer) defaultScore = true.

#[global] Instance at_or_below_default_dec peer : Decision (at_or_below_default peer).
Proof. unfold at_or_below_default. apply _. Defined.

(** What a sweep in a visiting order leaves of an entry. *)
Definition kept_unless (P : peerStat → Prop) `{∀ x, Decision (P x)}
    (o : option peerStat) : option peerStat :=
  match o with
  | Some peer => if decide (P peer) then None else Some peer
  | None => None
  end.

(** Modelled from the spec: the code that adjusts the score of a peer is
    not part of this development; the spec leaves to the calling code how
    scores change.  A caller holds the pointers [peers()] returned, so it
    can write the score of a stat wherever the stat is by then. *)
Definition set_score (s : float32) (peer : peerStat) : peerStat :=
  {| peerID := peerID peer; peerScore := s; pruneDeadline := pruneDeadline peer |}.

Definition update_score (pID : peer_ID) (s : float32) (p : PeerTracker) : PeerTracker :=
  {| trackedPeers := alter (set_score s) pID (trackedPeers p);
     disconnectedPeers := alter (set_score s) pID (disconnectedPeers p);
     pidstore := pidstore p |}.

(** The states of a tracker made by [NewPeerTracker]. *)
Inductive reachable (store : option (list (list peer_ID))) : PeerTracker → Prop :=
  | reach_new : reachable store (NewPeerTracker store)
  | reach_connected h pID p :
      reachable store p → reachable store (connected h pID p)
  | reach_disconnected now pID p :
      reachable store p → reachable store (disconnected now pID p)
  | reach_gc ld lt now p :
      reachable store p →
      visit_of ld (disconnectedPeers p) → visit_of lt (trackedPeers p) →
      reachable store (gc_cycle_with ld lt now p)
  | reach_blockPeer block_err close_err pID p :
      reachable store p → reachable store (blockPeer block_err close_err pID p).2
  | reach_score pID s p :
      reachable store p → reachable store (update_score pID s p).

(** A host with one lasting connection to every peer. *)
Definition plain_host : host :=
  {| host_ID := "self"; ConnsToPeer := λ _, [false] |}.

(** The float32 value 2. *)
Definition score_two : float32 := S754_finite false 8388608 (-22).

(** Peer ["a"] connects, is rewarded up to score 2, and is notified as
    connected once more. *)
Module rewarded.
Definition p0 : PeerTracker := NewPeerTracker None.
Definition p1 : PeerTracker := connected plain_host "a" p0.
Definition p2 : PeerTracker := update_score "a" score_two p1.
Definition p3 : PeerTracker := connected plain_host "a" p2.
End rewarded.

(** Peer ["a"], rewarded, disconnects at time 1000 and reconnects. *)
Module reconnect.
Definition p3 : PeerTracker := disconnected 1000 "a" rewarded.p2.
Definition p4 : PeerTracker := connected plain_host "a" p3.
End reconnect.

(** A tracker with 101 rewarded tracked peers and one disconnected peer. *)
Module crowded.
Definition name (n : nat) : peer_ID := String (Ascii.ascii_of_nat (65 + n)) EmptyString.
Definition stat (n : nat) : peerStat :=
  {| peerID := name n; peerScore := score_two; pruneDeadline := zero_time |}.
Definition gone : peerStat :=
  {| peerID := "gone"; peerScore := score_two; pruneDeadline := 5000 |}.
Definition p : PeerTracker :=
  {| trackedPeers := list_to_map ((λ n, (name n, stat n)) <$> seq 0 101);
     disconnectedPeers := {[ "gone" := gone ]};
     pidstore := None |}.
End crowded.

(** A tracker with a store, a default-score peer and a rewarded one
    tracked, and two disconnected peers whose deadlines are 10 and 20. *)
Module sweep.
Definition stat (id : peer_ID) (s : float32) (t : time_Time) : peerStat :=
  {| peerID := id; peerScore := s; pruneDeadline := t |}.
Definition p : PeerTracker :=
  {| trackedPeers := {[ "a" := stat "a" defaultScore 0; "b" := stat "b" score_two 0 ]};
     disconnectedPeers := {[ "c" := stat "c" score_two 10; "d" := stat "d" score_two 20 ]};
     pidstore := Some [] |}.
End sweep.

(** *** track *)

(** The values of [network.Connectedness]. *)
Inductive Connectedness : Type :=
  | NotConnected
  | Connected
  | CanConnect
  | CannotConnect.

(** An [event.EvtPeerConnectednessChanged] read from the subscription,
    with what the host reports and what [time.Now()] gives while the loop
    handles it. *)
Record event : Type := mkEvent {
  ev_host : host;
  ev_now : time_Time;
  ev_Peer : peer_ID;
  ev_Connectedness : Connectedness
}.

(** Lines 96-102: the [switch] on one event. *)
Definition track_event (ev : event) (p : PeerTracker) : PeerTracker :=
  match ev_Connectedness ev with
  | Connected => connected (ev_host ev) (ev_Peer ev) p
  | NotConnected => disconnected (ev_now ev) (ev_Peer ev) p
  | _ => p
  end.

Definition track_events (events : list event) (p : PeerTracker) : PeerTracker :=
  foldl (λ p ev, track_event ev p) p events.

(** Lines 77-79: each open connection is given with the host as it is when
    [connected] runs for it. *)
Definition track_seed (conns : list (host * peer_ID)) (p : PeerTracker)
  : PeerTracker :=
  foldl (λ p c, connected c.1 c.2 p) p conns.

(** [track]: [subscribe_err] is the error of [EventBus().Subscribe],
    [events] are the events read before [ctx.Done()], [close_err] is the
    error of [subs.Close()].  On both ways out the deferred function sends
    on [p.done]. *)
Definition track (conns : list (host * peer_ID)) (subscribe_err : option string)
    (events : list event) (close_err : option string) (p : PeerTracker)
  : list string * PeerTracker :=
  let p := track_seed conns p in
  match subscribe_err with
  | Some _ => (["subscribing to EvtPeerConnectednessChanged"%string], p)
  | None =>
      (match close_err with
       | Some _ => ["closing subscription"%string]
       | None => []
       end,
       track_events events p)
  end.

(** Every stat is filed under the identity it carries. *)
Definition stats_filed (p : PeerTracker) : Prop :=
  ∀ id peer,
    trackedPeers p !! id = Some peer ∨ disconnectedPeers p !! id = Some peer →
    peerID peer = id.

(** The peer is in neither map. *)
Definition untracked (pID : peer_ID) (p : PeerTracker) : Prop :=
  trackedPeers p !! pID = None ∧ disconnectedPeers p !! pID = None.

(** The stat [connected] makes for a peer it has not seen. *)
Definition new_stat (pID : peer_ID) : peerStat :=
  {| peerID := pID; peerScore := defaultScore; pruneDeadline := zero_time |}.

(** Peer ["a"] connects, disconnects at time 1000, and is found
    connectable at time 2000; peer ["b"] connects in between. *)
Module flapping.
Definition connect (pID : peer_ID) : event :=
  {| ev_host := plain_host; ev_now := 0; ev_Peer := pID; ev_Connectedness := Connected |}.
Definition events : list event :=
  [ connect "a";
    {| ev_host := plain_host; ev_now := 1000; ev_Peer := "a";
       ev_Connectedness := NotConnected |};
    connect "b";
    {| ev_host := plain_host; ev_now := 2000; ev_Peer := "a";
       ev_Connectedness := CanConnect |} ].
End flapping.

(** Three open connections when [track] starts: one to the host itself,
    one transient, one lasting. *)
Module seeding.
Definition shaky_host : host :=
  {| host_ID := "self"; ConnsToPeer := λ _, [false; true] |}.
Definition conns : list (host * peer_ID) :=
  [ (plain_host, "self"); (shaky_host, "t"); (plain_host, "a") ].
End seeding.

End p2p.

(** ** Package [headertest]: the scripted subscriber *)
Module headertest.

(** [context.Canceled] *)
Inductive error : Type := context_Canceled.

Section Subscriber.
Context {H : Type}.

(** [NextHeader] on a subscriber whose [Headers] are the list given: what
    it returns, and [Headers] once the deferred function has run. *)
Definition NextHeader (Headers : list H) : (H + error) * list H :=
  let popped :=
    if decide (1 < length Headers)%nat then drop 1 Headers else [] in
  match Headers with
  | [] => (inr context_Canceled, popped)
  | h :: _ => (inl h, popped)
  end.

(** [n] calls of [NextHeader] in a row: what they return, in order, and
    the [Headers] that are left. *)
Fixpoint NextHeader_times (n : nat) (Headers : list H)
  : list (H + error) * list H :=
  match n with
  | O => ([], Headers)
  | S n' =>
      let '(r, Headers') := NextHeader Headers in
      let '(rs, Headers'') := NextHeader_times n' Headers' in
      (r :: rs, Headers'')
  end.

End Subscriber.

End headertest.

(** * Ranging over a map *)
Section range.
Context `{Countable K} {V : Type}.
Implicit Types (l : list (K * V)) (m : gmap K V).

Lemma visit_of_map_to_list m : visit_of (map_to_list m) m.
Proof. unfold visit_of. reflexivity. Qed.

Lemma visit_of_elem l m k v : visit_of l m → (k, v) ∈ l ↔ m !! k = Some v.
Proof. unfold visit_of. intros ->. apply elem_of_map_to_list. Qed.

Lemma visit_of_key l m k v : visit_of l m → m !! k = Some v → k ∈ l.*1.
Proof.
  intros Hl Hk. apply list_elem_of_fmap. exists (k, v). split; [done|].
  by apply (visit_of_elem l m).
Qed.

Lemma visit_of_NoDup l m : visit_of l m → NoDup l.*1.
Proof. unfold visit_of. intros ->. apply NoDup_fst_map_to_list. Qed.
End range.

(** * Properties of heightSub *)
Module store_props.
Import store.

Section heightSub_props.
Context {H : Type}.
Variable header_Height : H → Z.
Implicit Types (hs : heightSub H) (μ : list (list H)) (m : gmap Z (list chan)).
Implicit Types (l : list (Z * list chan)) (reqs : list chan) (headers : list H).

(** **** Sending *)

Lemma send_empty req h μ :
  μ !! req = Some [] → send req h μ = Some (<[req := [h]]> μ).
Proof. intros Hreq. unfold send. rewrite Hreq. reflexivity. Qed.

Lemma send_all_free reqs h μ :
  NoDup reqs → Forall (λ c, μ !! c = Some []) reqs →
  ∃ μ', send_all reqs h μ = Some μ'
        ∧ (∀ c, c ∈ reqs → μ' !! c = Some [h])
        ∧ (∀ c, c ∉ reqs → μ' !! c = μ !! c).
Proof.
  revert μ. induction reqs as [|req reqs IH]; intros μ Hnd Hfree.
  - exists μ. split; [done|]. split; [|done]. intros c Hc. by apply elem_of_nil in Hc.
  - apply NoDup_cons in Hnd as [Hreq Hnd].
    apply Forall_cons in Hfree as [Hhd Hfree].
    assert (Hlt : (req < length μ)%nat) by (eapply lookup_lt_Some; eauto).
    destruct (IH (<[req := [h]]> μ) Hnd) as (μ' & Hrun & Hin & Hout).
    { rewrite Forall_forall in Hfree |- *. intros c Hc.
      rewrite list_lookup_insert_ne; [by apply Hfree|]. by intros ->. }
    exists μ'. simpl. rewrite (send_empty _ _ _ Hhd). split; [done|]. split.
    + intros c Hc. apply elem_of_cons in Hc as [->|Hc]; [|by apply Hin].
      rewrite (Hout _ Hreq). by apply list_lookup_insert_eq.
    + intros c Hc. apply not_elem_of_cons in Hc as [Hne Hc].
      rewrite (Hout _ Hc). by apply list_lookup_insert_ne.
Qed.

(** **** The loop over the pending buckets *)

Lemma pending_chans_cons k reqs l :
  pending_chans ((k, reqs) :: l) = reqs ++ pending_chans l.
Proof. reflexivity. Qed.

Lemma elem_of_pending_chans c l :
  c ∈ pending_chans l ↔ ∃ k reqs, (k, reqs) ∈ l ∧ c ∈ reqs.
Proof.
  unfold pending_chans. rewrite list_elem_of_join. split.
  - intros (reqs & Hc & Hreqs). apply list_elem_of_fmap in Hreqs as ([k reqs'] & -> & Hin).
    by exists k, reqs'.
  - intros (k & reqs & Hin & Hc). exists reqs. split; [done|].
    apply list_elem_of_fmap. by exists (k, reqs).
Qed.

(** The buckets that are left are those the loop did not visit within the
    published range. *)
Lemma Pub_range_lookup l headers from to m μ m' μ' k :
  Pub_range l headers from to m μ = (Pub_returned, (m', μ')) →
  m' !! k = if decide (k ∈ l.*1 ∧ from ≤ k ∧ k ≤ to) then None else m !! k.
Proof.
  revert m μ. induction l as [|[k0 reqs] l IH]; intros m μ Hrun; simpl in Hrun.
  - injection Hrun as <- <-. rewrite decide_False; [done|].
    intros [Hk _]. by apply elem_of_nil in Hk.
  - destruct (decide (from ≤ k0 ∧ k0 ≤ to)) as [Hin|Hout].
    + destruct (headers !! Z.to_nat (k0 - from)) as [h|]; [|done].
      destruct (send_all reqs h μ) as [μ1|]; [|done].
      rewrite (IH _ _ Hrun). rewrite fmap_cons. simpl.
      destruct (decide (k = k0)) as [->|Hne].
      * rewrite lookup_delete_eq. rewrite (decide_True (P := k0 ∈ k0 :: _ ∧ _)).
        -- by destruct (decide _).
        -- split; [apply elem_of_cons; by left|done].
      * rewrite lookup_delete_ne by done.
        destruct (decide (k ∈ l.*1 ∧ from ≤ k ∧ k ≤ to)) as [[Hk Hr]|Hn].
        -- rewrite decide_True; [done|]. split; [apply elem_of_cons; by right|done].
        -- rewrite decide_False; [done|]. intros [Hk Hr]. apply Hn. split; [|done].
           apply elem_of_cons in Hk as [?|?]; [done|done].
    + rewrite (IH _ _ Hrun). rewrite fmap_cons. simpl.
      destruct (decide (k ∈ l.*1 ∧ from ≤ k ∧ k ≤ to)) as [[Hk Hr]|Hn].
      * rewrite decide_True; [done|]. split; [apply elem_of_cons; by right|done].
      * rewrite decide_False; [done|]. intros [Hk Hr]. apply Hn. split; [|done].
        apply elem_of_cons in Hk as [->|?]; [|done]. by destruct Hout.
Qed.

(** With free and distinct channels and a header for every pending height
    of the range, the loop runs to its end, and fills the channels of the
    buckets of the range and no other. *)
Lemma Pub_range_returns l headers from to m μ :
  NoDup (pending_chans l) →
  Forall (λ c, μ !! c = Some []) (pending_chans l) →
  (∀ k reqs, (k, reqs) ∈ l → from ≤ k ∧ k ≤ to →
             is_Some (headers !! Z.to_nat (k - from))) →
  ∃ m' μ',
    Pub_range l headers from to m μ = (Pub_returned, (m', μ'))
    ∧ (∀ k reqs h c, (k, reqs) ∈ l → from ≤ k ∧ k ≤ to →
          headers !! Z.to_nat (k - from) = Some h → c ∈ reqs → μ' !! c = Some [h])
    ∧ (∀ k reqs c, (k, reqs) ∈ l → ¬ (from ≤ k ∧ k ≤ to) → c ∈ reqs →
          μ' !! c = Some [])
    ∧ (∀ c, c ∉ pending_chans l → μ' !! c = μ !! c).
Proof.
  revert m μ. induction l as [|[k0 reqs0] l IH]; intros m μ Hnd Hfree Hhdr.
  - exists m, μ. split; [done|]. repeat split; try done.
    + intros k reqs h c Hin. by apply elem_of_nil in Hin.
    + intros k reqs c Hin. by apply elem_of_nil in Hin.
  - rewrite pending_chans_cons in Hnd, Hfree.
    apply NoDup_app in Hnd as (Hnd0 & Hdisj & Hnd).
    apply Forall_app in Hfree as [Hfree0 Hfree].
    assert (Hhdr' : ∀ k reqs, (k, reqs) ∈ l → from ≤ k ∧ k ≤ to →
                      is_Some (headers !! Z.to_nat (k - from))).
    { intros k reqs Hin. apply (Hhdr k reqs). apply elem_of_cons. by right. }
    simpl. destruct (decide (from ≤ k0 ∧ k0 ≤ to)) as [Hin0|Hout0].
    + destruct (Hhdr k0 reqs0) as [h0 Hh0]; [apply elem_of_cons; by left|done|].
      rewrite Hh0.
      destruct (send_all_free reqs0 h0 μ Hnd0 Hfree0) as (μ1 & -> & Hin1 & Hout1).
      destruct (IH (delete k0 m) μ1 Hnd) as (m' & μ' & Hrun & Hfill & Hkeep & Hrest);
        [|done|].
      { rewrite Forall_forall in Hfree |- *. intros c Hc.
        rewrite Hout1; [by apply Hfree|]. intros Hc0. by apply (Hdisj c). }
      exists m', μ'. split; [done|]. split; [|split].
      * intros k reqs h c Hin Hr Hh Hc.
        apply elem_of_cons in Hin as [Heq|Hin]; [|by eapply Hfill].
        injection Heq as -> ->. rewrite Hh0 in Hh. injection Hh as <-.
        rewrite Hrest; [by apply Hin1|]. by apply Hdisj.
      * intros k reqs c Hin Hr Hc.
        apply elem_of_cons in Hin as [Heq|Hin]; [|by eapply Hkeep].
        injection Heq as -> ->. done.
      * intros c Hc. rewrite pending_chans_cons in Hc.
        apply not_elem_of_app in Hc as [Hc0 Hc]. rewrite Hrest by done. by apply Hout1.
    + destruct (IH m μ Hnd Hfree Hhdr') as (m' & μ' & Hrun & Hfill & Hkeep & Hrest).
      exists m', μ'. split; [done|]. split; [|split].
      * intros k reqs h c Hin Hr Hh Hc.
        apply elem_of_cons in Hin as [Heq|Hin]; [|by eapply Hfill].
        injection Heq as -> ->. done.
      * intros k reqs c Hin Hr Hc.
        apply elem_of_cons in Hin as [Heq|Hin]; [|by eapply Hkeep].
        injection Heq as -> ->. rewrite Hrest; [|by apply Hdisj].
        rewrite Forall_forall in Hfree0. by apply Hfree0.
      * intros c Hc. rewrite pending_chans_cons in Hc.
        apply not_elem_of_app in Hc as [Hc0 Hc]. by apply Hrest.
Qed.

Lemma Pub_range_not_fatal l headers from to m μ :
  (Pub_range l headers from to m μ).1 ≠ Pub_fatal.
Proof.
  revert m μ. induction l as [|[k reqs] l IH]; intros m μ; simpl; [done|].
  destruct (decide _); [|apply IH].
  destruct (headers !! _); [|done].
  destruct (send_all _ _ _); [apply IH|done].
Qed.

Lemma to_uint64_le z : 0 ≤ z → to_uint64 z ≤ z.
Proof. intros Hz. unfold to_uint64. apply Z.mod_le; lia. Qed.

Lemma to_uint64_small z : is_uint64 z → to_uint64 z = z.
Proof. intros Hz. unfold to_uint64. apply Z.mod_small. exact Hz. Qed.

Lemma to_uint64_range z : is_uint64 (to_uint64 z).
Proof. unfold is_uint64, to_uint64. apply Z.mod_pos_bound. lia. Qed.

(** **** Sub on an elapsed height *)

(** C6: when [Height() >= height], [Sub] returns [errElapsedHeight] from
    its prefix, before the [select], and registers nothing: the state,
    and so the map of pending requests, is the one before the call. *)
Theorem Sub_elapsed_height h hs :
  h ≤ Height hs →
  Sub_enter h hs = (Sub_returned (inr errElapsedHeight), hs)
  ∧ heightReqs (Sub_enter h hs).2 = heightReqs hs.
Proof.
  intros Hle. unfold Sub_enter. rewrite decide_True by done. done.
Qed.

(** **** The ordering check of Pub *)

(** C5: [Pub] of no header returns with the state as it was; [Pub] of a
    non-empty list ends in the fatal log exactly when the height of the
    first header is not [Height()+1] (the sum of the code, in [uint64];
    it is the sum of the integers as long as it fits), and then the height
    and the pending requests are those before the call. *)
Theorem Pub_fatal_iff l hs :
  Pub_with header_Height l [] hs = (Pub_returned, hs)
  ∧ ∀ h0 rest,
      ((Pub_with header_Height l (h0 :: rest) hs).1 = Pub_fatal
       ↔ to_uint64 (header_Height h0) ≠ to_uint64 (Height hs + 1))
      ∧ (is_uint64 (Height hs + 1) →
         ((Pub_with header_Height l (h0 :: rest) hs).1 = Pub_fatal
          ↔ to_uint64 (header_Height h0) ≠ Height hs + 1))
      ∧ ((Pub_with header_Height l (h0 :: rest) hs).1 = Pub_fatal →
         (Pub_with header_Height l (h0 :: rest) hs).2 = hs).
Proof.
  split; [done|]. intros h0 rest.
  assert (Hiff : (Pub_with header_Height l (h0 :: rest) hs).1 = Pub_fatal
                 ↔ to_uint64 (header_Height h0) ≠ to_uint64 (Height hs + 1)).
  { unfold Pub_with.
    destruct (decide (to_uint64 (Height hs + 1) ≠ to_uint64 (header_Height h0)))
      as [Hne|Heq].
    - split; [intros _; congruence|done].
    - split; [|intros Hne; exfalso; apply Heq; congruence].
      intros Hfatal. exfalso. revert Hfatal.
      destruct (decide (length (h0 :: rest) = 1%nat)).
      + destruct (heightReqs _ !! _); [|done]. by destruct (send_all _ _ _).
      + match goal with
        | |- context [Pub_range ?a ?b ?c ?d ?e ?f] =>
            pose proof (Pub_range_not_fatal a b c d e f) as Hnf;
            destruct (Pub_range a b c d e f) as [r [m' μ']]
        end. done. }
  split; [exact Hiff|]. split.
  - intros Hfit. by rewrite Hiff, (to_uint64_small _ Hfit).
  - intros Hfatal. apply Hiff in Hfatal. unfold Pub_with.
    rewrite decide_True; [done|congruence].
Qed.

(** **** Pending heights are above the current height *)

Lemma keys_above_height_enter h hs :
  keys_above_height hs → keys_above_height (Sub_enter h hs).2.
Proof.
  intros Hinv. unfold Sub_enter.
  destruct (decide (h ≤ Height hs)) as [|Hlt]; [done|].
  intros k reqs. simpl. intros Hk.
  destruct (decide (k = h)) as [->|Hne].
  - unfold Height in Hlt. lia.
  - rewrite lookup_insert_ne in Hk by done. by eapply Hinv.
Qed.

Lemma keys_above_height_done h hs :
  keys_above_height hs → keys_above_height (Sub_select_done h hs).2.
Proof.
  intros Hinv k reqs. simpl. intros Hk.
  apply lookup_delete_Some in Hk as [_ Hk]. by eapply Hinv.
Qed.

Lemma keys_above_height_resp resp hs st hs' :
  Sub_select_resp resp hs = Some (st, hs') →
  keys_above_height hs → keys_above_height hs'.
Proof.
  unfold Sub_select_resp. destruct (chans hs !! resp) as [[|v rest]|]; try done.
  intros [= <- <-] Hinv. exact Hinv.
Qed.

Lemma height_nonneg_Pub l headers hs r hs' :
  Pub_with header_Height l headers hs = (r, hs') → 0 ≤ height hs → 0 ≤ height hs'.
Proof.
  unfold Pub_with. destruct headers as [|h0 rest]; [by intros [= <- <-]|].
  destruct (decide _); [by intros [= <- <-]|].
  pose proof (to_uint64_range (header_Height (List.last (h0 :: rest) h0))) as [Hto _].
  destruct (decide _).
  - simpl. destruct (heightReqs hs !! _); [|by intros [= <- <-]].
    destruct (send_all _ _ _); by intros [= <- <-].
  - destruct (Pub_range _ _ _ _ _ _) as [r' [m' μ']]. by intros [= <- <-].
Qed.

Lemma keys_above_height_Pub l headers hs r hs' :
  visit_of l (heightReqs hs) →
  Pub_with header_Height l headers hs = (r, hs') →
  r = Pub_returned ∨ r = Pub_fatal →
  0 ≤ height hs → keys_above_height hs → keys_above_height hs'.
Proof.
  intros Hl Hrun Hr Hpos Hinv. unfold Pub_with in Hrun.
  destruct headers as [|h0 rest]; [by injection Hrun as <- <-|].
  destruct (decide _) as [|Hfrom]; [by injection Hrun as <- <-|].
  apply dec_stable in Hfrom.
  assert (to_uint64 (Height hs + 1) ≤ Height hs + 1) as Hle
    by (apply to_uint64_le; unfold Height; lia).
  unfold Height in *.
  set (from := to_uint64 (header_Height h0)) in *.
  set (to := to_uint64 (header_Height (List.last (h0 :: rest) h0))) in *.
  destruct (decide (length (h0 :: rest) = 1%nat)) as [Hone|Hmany].
  - assert (to = from) as Hto.
    { destruct rest; [done|]. simpl in Hone. lia. }
    simpl in Hrun. destruct (heightReqs hs !! from) as [reqs|] eqn:Hb.
    + destruct (send_all _ _ _); [|destruct Hr; congruence].
      injection Hrun as <- <-. intros k reqs'. simpl. intros Hk.
      apply lookup_delete_Some in Hk as [Hne Hk]. apply Hinv in Hk. lia.
    + injection Hrun as <- <-. intros k reqs'. simpl. intros Hk.
      assert (k ≠ from) by congruence. apply Hinv in Hk. lia.
  - simpl in Hrun.
    destruct (Pub_range l (h0 :: rest) from to (heightReqs hs) (chans hs))
      as [r' [m' μ']] eqn:Hloop.
    injection Hrun as -> <-.
    destruct Hr as [->| ->]; [|by pose proof (Pub_range_not_fatal l (h0 :: rest)
                                   from to (heightReqs hs) (chans hs)) as Hnf;
                                 rewrite Hloop in Hnf].
    intros k reqs. simpl. intros Hk.
    rewrite (Pub_range_lookup _ _ _ _ _ _ _ _ k Hloop) in Hk.
    destruct (decide _) as [|Hn]; [done|].
    pose proof (visit_of_key _ _ _ _ Hl Hk) as Hkl.
    apply Hinv in Hk.
    destruct (decide (k ≤ to)); [|lia]. exfalso. apply Hn.
    split; [done|]. lia.
Qed.

(** [Pub] is its two halves, one after the other. *)
Lemma Pub_with_halves l headers hs :
  Pub_with header_Height l headers hs
  = match Pub_advance header_Height headers hs with
    | inl r => (r, hs)
    | inr (from, to, hs') => Pub_locked l headers from to hs'
    end.
Proof.
  unfold Pub_with, Pub_advance, Pub_locked. destruct headers as [|h0 rest]; [done|].
  by destruct (decide _).
Qed.

(** X7: with calls of [Sub] running between the two halves of a [Pub], the
    pending heights are above the current height again once the second half
    has run: a height registered in between is above the new height, and
    the ones registered before are either published or above it. *)
Lemma keys_above_height_interleaved l headers hs from to hs1 hs2 hs3 :
  0 ≤ height hs → keys_above_height hs →
  Pub_advance header_Height headers hs = inr (from, to, hs1) →
  Sub_steps hs1 hs2 →
  visit_of l (heightReqs hs2) →
  Pub_locked l headers from to hs2 = (Pub_returned, hs3) →
  keys_above_height hs3.
Proof.
  intros Hpos Hinv Hadv Hsteps Hl Hrun. unfold Pub_advance in Hadv.
  destruct headers as [|h0 rest]; [done|].
  destruct (decide _) as [|Hfrom]; [done|]. apply dec_stable in Hfrom.
  assert (from ≤ height hs + 1 ∧ hs1 = SetHeight to hs
          ∧ (length (h0 :: rest) = 1%nat → to = from)) as (Hle & -> & Hone).
  { injection Hadv as Hf Ht Hs. split; [|split].
    - rewrite <- Hf, <- Hfrom. apply to_uint64_le. unfold Height. lia.
    - by rewrite <- Hs, Ht.
    - intros Hlen. destruct rest; [|simpl in Hlen; lia]. by rewrite <- Hf, <- Ht. }
  clear Hadv Hfrom.
  assert (Hmid : height hs2 = to
                 ∧ ∀ k reqs, heightReqs hs2 !! k = Some reqs → from ≤ k ∨ to < k).
  { clear Hl Hrun.
    induction Hsteps as [|h hs' _ [Hh Hkeys]|resp hs' st hs'' _ [Hh Hkeys] Hresp
                         |h hs' _ [Hh Hkeys]].
    - simpl. split; [done|]. intros k reqs Hk. apply Hinv in Hk. lia.
    - unfold Sub_enter, Height.
      destruct (decide (h ≤ height hs')); [done|]. simpl. split; [done|].
      intros k reqs Hk. destruct (decide (k = h)) as [->|Hne]; [lia|].
      rewrite lookup_insert_ne in Hk by done. by eapply Hkeys.
    - unfold Sub_select_resp in Hresp.
      destruct (chans hs' !! resp) as [[|v buf]|]; try done.
      by injection Hresp as <- <-.
    - simpl. split; [done|].
      intros k reqs Hk. apply lookup_delete_Some in Hk as [_ Hk]. by eapply Hkeys. }
  destruct Hmid as [Hh Hkeys]. unfold Pub_locked in Hrun.
  destruct (decide (length (h0 :: rest) = 1%nat)) as [Hlen|Hmany].
  - specialize (Hone Hlen).
    destruct (heightReqs hs2 !! from) as [reqs0|] eqn:Hb.
    + destruct (send_all _ _ _); [|done]. injection Hrun as <-.
      intros k reqs. simpl. intros Hk.
      apply lookup_delete_Some in Hk as [Hne Hk]. apply Hkeys in Hk. lia.
    + injection Hrun as <-. intros k reqs Hk.
      assert (k ≠ from) by congruence. apply Hkeys in Hk. lia.
  - destruct (Pub_range l (h0 :: rest) from to (heightReqs hs2) (chans hs2))
      as [r' [m' μ']] eqn:Hloop.
    injection Hrun as -> <-. intros k reqs. simpl. intros Hk.
    rewrite (Pub_range_lookup _ _ _ _ _ _ _ _ k Hloop) in Hk.
    destruct (decide _) as [|Hn]; [done|].
    pose proof (visit_of_key _ _ _ _ Hl Hk) as Hkl.
    apply Hkeys in Hk.
    destruct (decide (k ≤ to)); [|lia]. exfalso. apply Hn.
    split; [done|]. lia.
Qed.

(** C10: the pending heights stay above the current height through the
    registration of [Sub], through its cleanup on cancellation, and
    through every [Pub] that runs to its end, in whatever order the loop
    visits the buckets; so they are above it in every state these
    operations reach. *)
Theorem keys_above_height_invariant hs :
  0 ≤ height hs → keys_above_height hs →
  (∀ h, keys_above_height (Sub_enter h hs).2)
  ∧ (∀ h, keys_above_height (Sub_select_done h hs).2)
  ∧ (∀ l headers r hs',
        visit_of l (heightReqs hs) →
        Pub_with header_Height l headers hs = (r, hs') →
        r = Pub_returned ∨ r = Pub_fatal → keys_above_height hs')
  ∧ (∀ hs', hs_reachable header_Height hs hs' → keys_above_height hs').
Proof.
  intros Hpos Hinv. repeat split.
  - intros h. by apply keys_above_height_enter.
  - intros h. by apply keys_above_height_done.
  - intros l headers r hs' Hl Hrun Hr. by eapply keys_above_height_Pub.
  - intros hs' Hreach.
    enough (0 ≤ height hs' ∧ keys_above_height hs') by tauto.
    induction Hreach as [|h hs1 _ [IHp IH]|resp hs1 st hs2 _ [IHp IH] Hresp
                         |h hs1 _ [IHp IH]|l headers hs1 r hs2 _ [IHp IH] Hl Hrun Hr].
    + done.
    + split; [|by apply keys_above_height_enter].
      unfold Sub_enter. by repeat destruct (decide _).
    + split; [|by eapply keys_above_height_resp].
      unfold Sub_select_resp in Hresp.
      destruct (chans hs1 !! resp) as [[|v rest]|]; try done.
      by injection Hresp as <- <-.
    + split; [done|by apply keys_above_height_done].
    + split; [by eapply height_nonneg_Pub|by eapply keys_above_height_Pub].
Qed.

(** **** Publishing a contiguous range *)

Lemma pending_chans_submseteq l1 l2 :
  l1 ⊆+ l2 → pending_chans l1 ⊆+ pending_chans l2.
Proof.
  intros Hsub. unfold pending_chans. rewrite !list_join_bind.
  by apply bind_submseteq, fmap_submseteq.
Qed.

Lemma pending_chans_perm l1 l2 :
  l1 ≡ₚ l2 → pending_chans l1 ≡ₚ pending_chans l2.
Proof. intros Hl. unfold pending_chans. by rewrite Hl. Qed.

Lemma NoDup_submseteq_inv (k1 k2 : list chan) : k1 ⊆+ k2 → NoDup k2 → NoDup k1.
Proof.
  intros Hsub Hnd. apply submseteq_Permutation in Hsub as [k Hk].
  rewrite Hk in Hnd. by apply NoDup_app in Hnd as [? _].
Qed.

(** The bucket at [k] put in front of the others. *)
Lemma pending_chans_lookup m k reqs :
  m !! k = Some reqs →
  pending_chans (map_to_list m) ≡ₚ reqs ++ pending_chans (map_to_list (delete k m)).
Proof.
  intros Hk. rewrite <- (pending_chans_cons k). apply pending_chans_perm.
  symmetry. by apply map_to_list_delete.
Qed.

Lemma last_lookup_default h0 (rest : list H) d :
  (h0 :: rest) !! length rest = Some (List.last (h0 :: rest) d).
Proof.
  revert h0. induction rest as [|h1 rest IH]; intros h0; [done|].
  change ((h1 :: rest) !! length rest = Some (List.last (h1 :: rest) d)). apply IH.
Qed.

(** C2: a non-empty batch whose heights are [from], [from+1], ..., [to]
    with [from = Height()+1], published to a state whose registered
    channels are free and distinct: [Pub] returns, whatever the order of
    its visit; [Height()] is [to]; every bucket pending at a height [k] of
    the range is removed and each of its channels holds the header at
    offset [k-from], whose height is [k]; every other bucket is as it
    was, its channels still free. *)
Theorem Pub_fulfils_range l headers hs from to :
  visit_of l (heightReqs hs) →
  chans_wf hs →
  headers ≠ [] →
  0 ≤ Height hs →
  from = Height hs + 1 →
  to = from + Z.of_nat (length headers) - 1 →
  to < 2 ^ 64 →
  contiguous header_Height headers from →
  ∃ hs',
    Pub_with header_Height l headers hs = (Pub_returned, hs')
    ∧ Height hs' = to
    ∧ (∀ k reqs, heightReqs hs !! k = Some reqs → from ≤ k ∧ k ≤ to →
         heightReqs hs' !! k = None
         ∧ ∃ h, headers !! Z.to_nat (k - from) = Some h
                ∧ to_uint64 (header_Height h) = k
                ∧ ∀ c, c ∈ reqs → chans hs' !! c = Some [h])
    ∧ (∀ k, ¬ (from ≤ k ∧ k ≤ to) → heightReqs hs' !! k = heightReqs hs !! k)
    ∧ (∀ k reqs c, heightReqs hs !! k = Some reqs → ¬ (from ≤ k ∧ k ≤ to) →
         c ∈ reqs → chans hs' !! c = Some []).
Proof.
  intros Hl [Hnd Hfree] Hne Hpos Hfrom Hto Hmax Hcont.
  destruct headers as [|h0 rest]; [done|]. clear Hne.
  assert (Hf : to_uint64 (header_Height h0) = from).
  { rewrite (Hcont 0%nat h0) by done. lia. }
  assert (Ht : to_uint64 (header_Height (List.last (h0 :: rest) h0)) = to).
  { rewrite (Hcont (length rest) _ (last_lookup_default h0 rest h0)).
    simpl in Hto. lia. }
  assert (Hhdr : ∀ k, from ≤ k ∧ k ≤ to →
            ∃ h, (h0 :: rest) !! Z.to_nat (k - from) = Some h
                 ∧ to_uint64 (header_Height h) = k).
  { intros k Hk.
    destruct (lookup_lt_is_Some_2 (h0 :: rest) (Z.to_nat (k - from))) as [h Hh].
    { simpl in Hto |- *. lia. }
    exists h. split; [done|]. rewrite (Hcont _ _ Hh). lia. }
  unfold Pub_with. rewrite Hf, Ht.
  rewrite decide_False.
  2:{ intros Hbad. apply Hbad. rewrite Hfrom. apply to_uint64_small.
      unfold is_uint64. simpl in Hto. lia. }
  destruct (decide (length (h0 :: rest) = 1%nat)) as [Hone|Hmany].
  - assert (to = from) as -> by (rewrite Hone in Hto; lia).
    simpl. destruct (heightReqs hs !! from) as [reqs0|] eqn:Hb.
    + pose proof (pending_chans_lookup _ _ _ Hb) as Hperm.
      rewrite Hperm in Hnd, Hfree.
      apply NoDup_app in Hnd as (Hnd0 & Hdisj & _).
      apply Forall_app in Hfree as [Hfree0 Hfree].
      destruct (send_all_free reqs0 h0 (chans hs) Hnd0 Hfree0)
        as (μ' & -> & Hin & Hout).
      eexists. split; [done|]. split; [done|]. simpl. split; [|split].
      * intros k reqs Hk Hr. assert (k = from) as -> by lia.
        rewrite Hb in Hk. injection Hk as <-.
        split; [apply lookup_delete_eq|].
        exists h0. rewrite Z.sub_diag. split; [done|]. split; [done|]. exact Hin.
      * intros k Hk. apply lookup_delete_ne. lia.
      * intros k reqs c Hk Hr Hc. assert (k ≠ from) as Hkne by lia.
        assert (c ∈ pending_chans (map_to_list (delete from (heightReqs hs)))) as Hcp.
        { apply elem_of_pending_chans. exists k, reqs. split; [|done].
          apply elem_of_map_to_list. by rewrite lookup_delete_ne. }
        rewrite Hout; [|intros Hc0; by apply (Hdisj c)].
        rewrite Forall_forall in Hfree. by apply Hfree.
    + eexists. split; [done|]. split; [done|]. simpl. split; [|split].
      * intros k reqs Hk Hr. assert (k = from) as -> by lia. congruence.
      * done.
      * intros k reqs c Hk Hr Hc. rewrite Forall_forall in Hfree. apply Hfree.
        apply elem_of_pending_chans. exists k, reqs. split; [|done].
        by apply elem_of_map_to_list.
  - simpl.
    rewrite <- (pending_chans_perm _ _ Hl) in Hnd, Hfree.
    destruct (Pub_range_returns l (h0 :: rest) from to (heightReqs hs) (chans hs)
                Hnd Hfree) as (m' & μ' & Hrun & Hfill & Hkeep & Hrest).
    { intros k reqs _ Hk. destruct (Hhdr k Hk) as (h & Hh & _). by exists h. }
    rewrite Hrun. eexists. split; [done|]. split; [done|]. simpl. split; [|split].
    + intros k reqs Hk Hr.
      rewrite (Pub_range_lookup _ _ _ _ _ _ _ _ k Hrun).
      rewrite decide_True by (split; [by eapply visit_of_key|done]).
      split; [done|]. destruct (Hhdr k Hr) as (h & Hh & Hhk).
      exists h. split; [done|]. split; [done|]. intros c Hc.
      eapply Hfill; [|done|done|done]. by apply (visit_of_elem l (heightReqs hs)).
    + intros k Hk. rewrite (Pub_range_lookup _ _ _ _ _ _ _ _ k Hrun).
      apply decide_False. tauto.
    + intros k reqs c Hk Hr Hc. eapply Hkeep; [|done|done].
      by apply (visit_of_elem l (heightReqs hs)).
Qed.

(** **** Registered channels stay free and distinct *)

Lemma pending_chans_bucket m k :
  pending_chans (map_to_list m)
  ≡ₚ bucket m k ++ pending_chans (map_to_list (delete k m)).
Proof.
  unfold bucket. destruct (m !! k) as [reqs|] eqn:Hk; simpl.
  - by apply pending_chans_lookup.
  - by rewrite delete_id.
Qed.

Lemma pending_chans_insert m k reqs :
  pending_chans (map_to_list (<[k := reqs]> m))
  ≡ₚ reqs ++ pending_chans (map_to_list (delete k m)).
Proof.
  rewrite <- (pending_chans_cons k). apply pending_chans_perm.
  rewrite <- insert_delete_eq. apply map_to_list_insert, lookup_delete_eq.
Qed.

Lemma chans_wf_new : chans_wf (H := H) newHeightSub.
Proof.
  unfold chans_wf. simpl. rewrite map_to_list_empty. split; constructor.
Qed.

Lemma chans_wf_SetHeight h hs : chans_wf hs → chans_wf (SetHeight h hs).
Proof. done. Qed.

Lemma chans_wf_enter h hs : chans_wf hs → chans_wf (Sub_enter h hs).2.
Proof.
  intros [Hnd Hfree]. unfold Sub_enter.
  destruct (decide (h ≤ Height hs)); [done|]. unfold chans_wf. simpl.
  rewrite pending_chans_insert.
  rewrite (pending_chans_bucket _ h) in Hnd, Hfree.
  set (b := bucket (heightReqs hs) h) in *.
  set (rest := pending_chans (map_to_list (delete h (heightReqs hs)))) in *.
  assert (Hperm : (b ++ [length (chans hs)]) ++ rest ≡ₚ length (chans hs) :: b ++ rest).
  { rewrite <- app_assoc. simpl. symmetry. apply Permutation_middle. }
  rewrite Hperm. rewrite Forall_forall in Hfree. split.
  - apply NoDup_cons. split; [|done]. intros Hin. apply Hfree in Hin.
    apply lookup_lt_Some in Hin. lia.
  - apply Forall_cons. split.
    + rewrite lookup_app_r by lia. by rewrite Nat.sub_diag.
    + apply Forall_forall. intros c Hc. apply Hfree in Hc.
      rewrite lookup_app_l; [done|]. by eapply lookup_lt_Some.
Qed.

Lemma chans_wf_done h hs : chans_wf hs → chans_wf (Sub_select_done h hs).2.
Proof.
  intros [Hnd Hfree]. unfold chans_wf. simpl.
  rewrite (pending_chans_bucket _ h) in Hnd, Hfree.
  apply NoDup_app in Hnd as (_ & _ & Hnd). by apply Forall_app in Hfree as [_ Hfree].
Qed.

Lemma chans_wf_resp resp hs st hs' :
  Sub_select_resp resp hs = Some (st, hs') → chans_wf hs → chans_wf hs'.
Proof.
  unfold Sub_select_resp. destruct (chans hs !! resp) as [[|v rest]|] eqn:Hresp; try done.
  intros [= <- <-] [Hnd Hfree]. split; [done|]. simpl.
  rewrite Forall_forall in Hfree |- *. intros c Hc. apply Hfree in Hc.
  rewrite list_lookup_insert_ne; [done|]. intros ->. congruence.
Qed.

(** When the loop runs to its end, the channels outside the buckets it
    visits are untouched. *)
Lemma Pub_range_untouched l headers from to m μ m' μ' c :
  NoDup (pending_chans l) →
  Forall (λ c, μ !! c = Some []) (pending_chans l) →
  Pub_range l headers from to m μ = (Pub_returned, (m', μ')) →
  c ∉ pending_chans l → μ' !! c = μ !! c.
Proof.
  revert m μ. induction l as [|[k0 reqs0] l IH]; intros m μ Hnd Hfree Hrun Hc.
  { simpl in Hrun. by injection Hrun as <- <-. }
  rewrite pending_chans_cons in Hnd, Hfree, Hc.
  apply NoDup_app in Hnd as (Hnd0 & Hdisj & Hnd).
  apply Forall_app in Hfree as [Hfree0 Hfree].
  apply not_elem_of_app in Hc as [Hc0 Hc].
  simpl in Hrun. destruct (decide (from ≤ k0 ∧ k0 ≤ to)); [|by eapply IH].
  destruct (headers !! Z.to_nat (k0 - from)) as [h0|]; [|done].
  destruct (send_all_free reqs0 h0 μ Hnd0 Hfree0) as (μ1 & Hsend & _ & Hout1).
  rewrite Hsend in Hrun.
  rewrite (IH (delete k0 m) μ1 Hnd); [by apply Hout1| |done|done].
  rewrite Forall_forall in Hfree |- *. intros c' Hc'.
  rewrite Hout1; [by apply Hfree|]. intros Hc1. by apply (Hdisj c').
Qed.

(** And so are the channels of the buckets it leaves. *)
Lemma Pub_range_kept l headers from to m μ m' μ' :
  NoDup (pending_chans l) →
  Forall (λ c, μ !! c = Some []) (pending_chans l) →
  Pub_range l headers from to m μ = (Pub_returned, (m', μ')) →
  ∀ k reqs c, (k, reqs) ∈ l → ¬ (from ≤ k ∧ k ≤ to) → c ∈ reqs → μ' !! c = Some [].
Proof.
  revert m μ. induction l as [|[k0 reqs0] l IH]; intros m μ Hnd Hfree Hrun k reqs c Hin.
  { by apply elem_of_nil in Hin. }
  pose proof (Pub_range_untouched _ _ _ _ _ _ _ _ c Hnd Hfree Hrun) as Hsame.
  rewrite pending_chans_cons in Hnd, Hfree, Hsame.
  apply NoDup_app in Hnd as (Hnd0 & Hdisj & Hnd).
  apply Forall_app in Hfree as [Hfree0 Hfree].
  intros Hr Hc. simpl in Hrun.
  destruct (decide (from ≤ k0 ∧ k0 ≤ to)) as [Hin0|Hout0].
  - destruct (headers !! Z.to_nat (k0 - from)) as [h0|]; [|done].
    destruct (send_all_free reqs0 h0 μ Hnd0 Hfree0) as (μ1 & Hsend & _ & Hout1).
    rewrite Hsend in Hrun.
    apply elem_of_cons in Hin as [Heq|Hin]; [injection Heq as -> ->; done|].
    eapply (IH _ μ1); [done| |done|done|done|done].
    rewrite Forall_forall in Hfree |- *. intros c' Hc'.
    rewrite Hout1; [by apply Hfree|]. intros Hc0. by apply (Hdisj c').
  - apply elem_of_cons in Hin as [Heq|Hin]; [|by eapply (IH _ μ)].
    injection Heq as -> ->.
    pose proof (Pub_range_untouched _ _ _ _ _ _ _ _ c Hnd Hfree Hrun) as Hsame'.
    rewrite Hsame'; [|by apply Hdisj].
    rewrite Forall_forall in Hfree0. by apply Hfree0.
Qed.

Lemma chans_wf_Pub l headers hs r hs' :
  visit_of l (heightReqs hs) →
  Pub_with header_Height l headers hs = (r, hs') →
  r = Pub_returned ∨ r = Pub_fatal →
  chans_wf hs → chans_wf hs'.
Proof.
  intros Hl Hrun Hr [Hnd Hfree]. unfold Pub_with in Hrun.
  destruct headers as [|h0 rest]; [by injection Hrun as <- <-|].
  destruct (decide _) as [|_]; [by injection Hrun as <- <-|].
  set (from := to_uint64 (header_Height h0)) in *.
  set (to := to_uint64 (header_Height (List.last (h0 :: rest) h0))) in *.
  destruct (decide (length (h0 :: rest) = 1%nat)) as [_|_].
  - simpl in Hrun. destruct (heightReqs hs !! from) as [reqs0|] eqn:Hb.
    + pose proof (pending_chans_lookup _ _ _ Hb) as Hperm.
      rewrite Hperm in Hnd, Hfree.
      apply NoDup_app in Hnd as (Hnd0 & Hdisj & Hnd).
      apply Forall_app in Hfree as [Hfree0 Hfree].
      destruct (send_all_free reqs0 h0 (chans hs) Hnd0 Hfree0)
        as (μ' & Hsend & _ & Hout).
      rewrite Hsend in Hrun. injection Hrun as <- <-.
      split; [done|]. simpl. rewrite Forall_forall in Hfree |- *.
      intros c Hc. rewrite Hout; [by apply Hfree|]. intros Hc0. by apply (Hdisj c).
    + by injection Hrun as <- <-.
  - simpl in Hrun.
    destruct (Pub_range l (h0 :: rest) from to (heightReqs hs) (chans hs))
      as [r' [m' μ']] eqn:Hloop.
    injection Hrun as -> <-.
    destruct Hr as [->| ->]; [|by pose proof (Pub_range_not_fatal l (h0 :: rest)
                                   from to (heightReqs hs) (chans hs)) as Hnf;
                                 rewrite Hloop in Hnf].
    assert (Hsub : m' ⊆ heightReqs hs).
    { apply map_subseteq_spec. intros k reqs Hk.
      rewrite (Pub_range_lookup _ _ _ _ _ _ _ _ k Hloop) in Hk.
      by destruct (decide _). }
    unfold chans_wf. simpl. split.
    + eapply NoDup_submseteq_inv; [|exact Hnd].
      by apply pending_chans_submseteq, map_to_list_submseteq.
    + apply Forall_forall. intros c Hc.
      apply elem_of_pending_chans in Hc as (k & reqs & Hk & Hc).
      apply elem_of_map_to_list in Hk.
      rewrite (Pub_range_lookup _ _ _ _ _ _ _ _ k Hloop) in Hk.
      destruct (decide _) as [|Hn]; [done|].
      rewrite <- (pending_chans_perm _ _ Hl) in Hnd, Hfree.
      eapply (Pub_range_kept _ _ _ _ _ _ _ _ Hnd Hfree Hloop k reqs);
        [by apply (visit_of_elem l (heightReqs hs))| |done].
      intros Hin. apply Hn. split; [by eapply visit_of_key|done].
Qed.

(** The registered channels are free and distinct in every state the
    operations reach from a state where they are. *)
Lemma chans_wf_reachable hs0 hs :
  hs_reachable header_Height hs0 hs → chans_wf hs0 → chans_wf hs.
Proof.
  intros Hreach Hwf.
  induction Hreach as [|h hs1 _ IH|resp hs1 st hs2 _ IH Hresp
                       |h hs1 _ IH|l headers hs1 r hs2 _ IH Hl Hrun Hr].
  - done.
  - by apply chans_wf_enter.
  - by eapply chans_wf_resp.
  - by apply chans_wf_done.
  - by eapply chans_wf_Pub.
Qed.

(** **** Cancellation *)

(** The cleanup removes the bucket of the height, whoever registered in it. *)
Lemma Sub_select_done_bucket h hs :
  heightReqs (Sub_select_done h hs).2 !! h = None
  ∧ ∀ k, k ≠ h → heightReqs (Sub_select_done h hs).2 !! k = heightReqs hs !! k.
Proof.
  simpl. split; [apply lookup_delete_eq|]. intros k Hk. by apply lookup_delete_ne.
Qed.

(** X6: a caller that [Sub] parks alone at its height and that is cancelled
    leaves the map of pending requests as it found it. *)
Lemma Sub_cancel_alone h hs :
  Height hs < h → heightReqs hs !! h = None →
  ∃ resp, (Sub_enter h hs).1 = Sub_at_select resp
          ∧ heightReqs (Sub_select_done h (Sub_enter h hs).2).2 = heightReqs hs.
Proof.
  intros Hlt Hnone. unfold Sub_enter, Height in *. rewrite !decide_False by lia.
  eexists. split; [done|]. simpl. rewrite delete_insert_eq. by apply delete_id.
Qed.

(** A caller that was not alone takes the other registrations with it. *)
Lemma Sub_cancel_not_alone h hs reqs :
  Height hs < h → heightReqs hs !! h = Some reqs →
  heightReqs (Sub_select_done h (Sub_enter h hs).2).2 = delete h (heightReqs hs)
  ∧ heightReqs (Sub_select_done h (Sub_enter h hs).2).2 ≠ heightReqs hs.
Proof.
  intros Hlt Hsome. unfold Sub_enter, Height in *. rewrite !decide_False by lia. simpl.
  rewrite delete_insert_eq. split; [done|].
  intros Heq. apply (f_equal (.!! h)) in Heq. rewrite lookup_delete_eq in Heq. congruence.
Qed.

(** **** Sends that cannot block, indexes that can be out of range *)

Lemma Pub_range_no_block l headers from to m μ :
  NoDup (pending_chans l) →
  Forall (λ c, μ !! c = Some []) (pending_chans l) →
  (Pub_range l headers from to m μ).1 ≠ Pub_blocked.
Proof.
  revert m μ. induction l as [|[k0 reqs0] l IH]; intros m μ Hnd Hfree; [done|].
  rewrite pending_chans_cons in Hnd, Hfree.
  apply NoDup_app in Hnd as (Hnd0 & Hdisj & Hnd).
  apply Forall_app in Hfree as [Hfree0 Hfree].
  simpl. destruct (decide (from ≤ k0 ∧ k0 ≤ to)); [|by apply IH].
  destruct (headers !! Z.to_nat (k0 - from)) as [h0|]; [|done].
  destruct (send_all_free reqs0 h0 μ Hnd0 Hfree0) as (μ1 & -> & _ & Hout1).
  apply IH; [done|]. rewrite Forall_forall in Hfree |- *. intros c Hc.
  rewrite Hout1; [by apply Hfree|]. intros Hc0. by apply (Hdisj c).
Qed.

(** The loop panics when it meets a bucket of the range whose offset has
    no header, and only then. *)
Lemma Pub_range_panic_iff l headers from to m μ :
  NoDup (pending_chans l) →
  Forall (λ c, μ !! c = Some []) (pending_chans l) →
  (Pub_range l headers from to m μ).1 = Pub_panic
  ↔ ∃ k reqs, (k, reqs) ∈ l ∧ (from ≤ k ∧ k ≤ to)
              ∧ headers !! Z.to_nat (k - from) = None.
Proof.
  revert m μ. induction l as [|[k0 reqs0] l IH]; intros m μ Hnd Hfree.
  { simpl. split; [done|]. intros (k & reqs & Hin & _). by apply elem_of_nil in Hin. }
  rewrite pending_chans_cons in Hnd, Hfree.
  apply NoDup_app in Hnd as (Hnd0 & Hdisj & Hnd).
  apply Forall_app in Hfree as [Hfree0 Hfree].
  simpl. destruct (decide (from ≤ k0 ∧ k0 ≤ to)) as [Hin0|Hout0].
  - destruct (headers !! Z.to_nat (k0 - from)) as [h0|] eqn:Hh0.
    + destruct (send_all_free reqs0 h0 μ Hnd0 Hfree0) as (μ1 & -> & _ & Hout1).
      rewrite IH; [| done |].
      * split; intros (k & reqs & Hin & Hr & Hnone); exists k, reqs.
        -- split; [apply elem_of_cons; by right|done].
        -- apply elem_of_cons in Hin as [[= -> ->]|Hin]; [congruence|done].
      * rewrite Forall_forall in Hfree |- *. intros c Hc.
        rewrite Hout1; [by apply Hfree|]. intros Hc0. by apply (Hdisj c).
    + simpl. split; [|done]. intros _. exists k0, reqs0.
      split; [apply elem_of_cons; by left|done].
  - rewrite IH by done.
    split; intros (k & reqs & Hin & Hr & Hnone); exists k, reqs.
    + split; [apply elem_of_cons; by right|done].
    + apply elem_of_cons in Hin as [[= -> ->]|Hin]; [done|done].
Qed.

(** When the loop runs to its end, each channel of a bucket of the range
    holds the header at the offset of the bucket. *)
Lemma Pub_range_filled l headers from to m μ m' μ' :
  NoDup (pending_chans l) →
  Forall (λ c, μ !! c = Some []) (pending_chans l) →
  Pub_range l headers from to m μ = (Pub_returned, (m', μ')) →
  ∀ k reqs c, (k, reqs) ∈ l → from ≤ k ∧ k ≤ to → c ∈ reqs →
    ∃ h, headers !! Z.to_nat (k - from) = Some h ∧ μ' !! c = Some [h].
Proof.
  revert m μ. induction l as [|[k0 reqs0] l IH]; intros m μ Hnd Hfree Hrun k reqs c Hin.
  { by apply elem_of_nil in Hin. }
  rewrite pending_chans_cons in Hnd, Hfree.
  apply NoDup_app in Hnd as (Hnd0 & Hdisj & Hnd).
  apply Forall_app in Hfree as [Hfree0 Hfree].
  intros Hr Hc. simpl in Hrun.
  destruct (decide (from ≤ k0 ∧ k0 ≤ to)) as [Hin0|Hout0].
  - destruct (headers !! Z.to_nat (k0 - from)) as [h0|] eqn:Hh0; [|done].
    destruct (send_all_free reqs0 h0 μ Hnd0 Hfree0) as (μ1 & Hsend & Hin1 & Hout1).
    rewrite Hsend in Hrun.
    assert (Hfree1 : Forall (λ c, μ1 !! c = Some []) (pending_chans l)).
    { rewrite Forall_forall in Hfree |- *. intros c' Hc'.
      rewrite Hout1; [by apply Hfree|]. intros Hc0. by apply (Hdisj c'). }
    apply elem_of_cons in Hin as [Heq|Hin]; [|by eapply (IH _ μ1)].
    injection Heq as -> ->. exists h0. split; [done|].
    rewrite (Pub_range_untouched _ _ _ _ _ _ _ _ c Hnd Hfree1 Hrun); [by apply Hin1|].
    by apply Hdisj.
  - apply elem_of_cons in Hin as [Heq|Hin]; [|by eapply (IH _ μ)].
    injection Heq as -> ->. done.
Qed.

(** With one height in the range, the loop does what a lookup of that
    height does. *)
Lemma Pub_range_skips l headers k m μ :
  k ∉ l.*1 → Pub_range l headers k k m μ = (Pub_returned, (m, μ)).
Proof.
  revert m μ. induction l as [|[k0 reqs0] l IH]; intros m μ Hk; [done|].
  rewrite fmap_cons in Hk. apply not_elem_of_cons in Hk as [Hne Hk]. simpl in Hne.
  simpl. rewrite decide_False by lia. by apply IH.
Qed.

Lemma Pub_range_single l h0 k m μ :
  NoDup l.*1 →
  Pub_range l [h0] k k m μ
  = match (list_to_map l : gmap Z (list chan)) !! k with
    | Some reqs =>
        match send_all reqs h0 μ with
        | Some μ' => (Pub_returned, (delete k m, μ'))
        | None => (Pub_blocked, (m, μ))
        end
    | None => (Pub_returned, (m, μ))
    end.
Proof.
  revert m μ. induction l as [|[k0 reqs0] l IH]; intros m μ Hnd; [done|].
  rewrite fmap_cons in Hnd. apply NoDup_cons in Hnd as [Hk0 Hnd]. simpl in Hk0.
  simpl. destruct (decide (k0 = k)) as [->|Hne].
  - rewrite decide_True by lia. rewrite Z.sub_diag. simpl.
    rewrite lookup_insert_eq.
    destruct (send_all reqs0 h0 μ) as [μ'|]; [|done]. by apply Pub_range_skips.
  - rewrite decide_False by lia. rewrite lookup_insert_ne by done. by apply IH.
Qed.

(** X1: a state whose registered channels are distinct and free, as is
    every state that [Sub] and [Pub] reach from a new [heightSub], has no
    send of [Pub] that blocks, whatever the headers and the order of the
    visit. *)
Theorem Pub_never_blocks hs :
  chans_wf hs →
  ∀ hs', hs_reachable header_Height hs hs' →
  ∀ l headers, visit_of l (heightReqs hs') →
    (Pub_with header_Height l headers hs').1 ≠ Pub_blocked.
Proof.
  intros Hwf0 hs' Hreach l headers Hl.
  destruct (chans_wf_reachable hs hs' Hreach Hwf0) as [Hnd Hfree].
  unfold Pub_with. destruct headers as [|h0 rest]; [done|].
  destruct (decide _); [done|].
  destruct (decide (length (h0 :: rest) = 1%nat)).
  - simpl. destruct (heightReqs hs' !! _) as [reqs0|] eqn:Hb; [|done].
    rewrite (pending_chans_lookup _ _ _ Hb) in Hnd, Hfree.
    apply NoDup_app in Hnd as (Hnd0 & _ & _).
    apply Forall_app in Hfree as [Hfree0 _].
    by destruct (send_all_free reqs0 h0 (chans hs') Hnd0 Hfree0) as (μ' & -> & _).
  - simpl. rewrite <- (pending_chans_perm _ _ Hl) in Hnd, Hfree.
    match goal with
    | |- context [Pub_range ?a ?b ?c ?d ?e ?f] =>
        pose proof (Pub_range_no_block a b c d e f Hnd Hfree) as Hnb;
        destruct (Pub_range a b c d e f) as [r [m' μ']]
    end. done.
Qed.

(** X2: with distinct and free registered channels, [Pub] panics exactly
    when the batch passes the ordering check and a height is pending, in
    the range from the first to the last height of the batch, at an offset
    the batch does not have. *)
Theorem Pub_panics_iff l headers hs :
  chans_wf hs →
  visit_of l (heightReqs hs) →
  (Pub_with header_Height l headers hs).1 = Pub_panic
  ↔ ∃ h0 rest k reqs,
      headers = h0 :: rest
      ∧ to_uint64 (Height hs + 1) = to_uint64 (header_Height h0)
      ∧ heightReqs hs !! k = Some reqs
      ∧ to_uint64 (header_Height h0) ≤ k
      ∧ k ≤ to_uint64 (header_Height (List.last headers h0))
      ∧ Z.of_nat (length headers) ≤ k - to_uint64 (header_Height h0).
Proof.
  intros [Hnd Hfree] Hl. unfold Pub_with.
  destruct headers as [|h0 rest].
  { split; [done|]. by intros (? & ? & ? & ? & ? & _). }
  set (from := to_uint64 (header_Height h0)).
  set (to := to_uint64 (header_Height (List.last (h0 :: rest) h0))).
  destruct (decide (to_uint64 (Height hs + 1) ≠ from)) as [Hbad|Hok].
  { split; [done|]. intros (h0' & rest' & k & reqs & [= <- <-] & Hchk & _). done. }
  destruct (decide (length (h0 :: rest) = 1%nat)) as [Hone|Hmany].
  - split.
    + simpl. destruct (heightReqs hs !! from); [|done]. by destruct (send_all _ _ _).
    + intros (h0' & rest' & k & reqs & [= <- <-] & _ & _ & Hlo & Hhi & Hoff).
      exfalso. destruct rest; [|simpl in Hone; lia]. simpl in Hhi, Hoff.
      fold from in Hlo, Hhi, Hoff. lia.
  - simpl. rewrite <- (pending_chans_perm _ _ Hl) in Hnd, Hfree.
    pose proof (Pub_range_panic_iff l (h0 :: rest) from to (heightReqs hs) (chans hs)
                  Hnd Hfree) as Hiff.
    destruct (Pub_range l (h0 :: rest) from to (heightReqs hs) (chans hs))
      as [r [m' μ']]. simpl in *. rewrite Hiff. split.
    + intros (k & reqs & Hin & Hr & Hnone). exists h0, rest, k, reqs.
      apply (visit_of_elem l (heightReqs hs)) in Hin; [|done].
      apply lookup_ge_None in Hnone. simpl in Hnone.
      split; [done|]. split; [by apply dec_stable|]. split; [done|].
      fold from. split; [lia|]. split; [lia|]. simpl. lia.
    + intros (h0' & rest' & k & reqs & [= <- <-] & _ & Hk & Hlo & Hhi & Hoff).
      exists k, reqs. split; [by apply (visit_of_elem l (heightReqs hs))|].
      fold from in Hlo, Hoff. split; [done|]. apply lookup_ge_None. simpl in *. lia.
Qed.

(** X3: for one header, the lookup of lines 98-106 gives what the loop of
    lines 111-121 gives for it, whatever the order of its visit. *)
Theorem Pub_single_agrees_with_loop l h0 hs :
  visit_of l (heightReqs hs) →
  to_uint64 (Height hs + 1) = to_uint64 (header_Height h0) →
  Pub_with header_Height l [h0] hs
  = let '(r, (m', μ')) :=
      Pub_range l [h0] (to_uint64 (header_Height h0)) (to_uint64 (header_Height h0))
                (heightReqs hs) (chans hs) in
    (r, {| height := to_uint64 (header_Height h0); heightReqs := m'; chans := μ' |}).
Proof.
  intros Hl Hchk. unfold Pub_with. rewrite decide_False by (intros Hbad; by apply Hbad).
  rewrite decide_True by done. simpl.
  rewrite (Pub_range_single l h0 _ _ _ (visit_of_NoDup _ _ Hl)).
  unfold visit_of in Hl.
  rewrite (list_to_map_proper l (map_to_list (heightReqs hs)))
    by (done || by eapply visit_of_NoDup).
  rewrite list_to_map_to_list.
  destruct (heightReqs hs !! _); [|done]. by destruct (send_all _ _ _).
Qed.

(** X4: after a [Pub] that returns, every caller registered at a height
    between the first and the last height of the batch finds in its
    channel the header at the offset of that height, and its [select]
    returns it: all the callers of one height get the same header. *)
Theorem Pub_serves_waiters l h0 rest hs hs' k reqs c :
  chans_wf hs →
  visit_of l (heightReqs hs) →
  Pub_with header_Height l (h0 :: rest) hs = (Pub_returned, hs') →
  heightReqs hs !! k = Some reqs →
  c ∈ reqs →
  to_uint64 (header_Height h0) ≤ k →
  k ≤ to_uint64 (header_Height (List.last (h0 :: rest) h0)) →
  ∃ h, (h0 :: rest) !! Z.to_nat (k - to_uint64 (header_Height h0)) = Some h
       ∧ chans hs' !! c = Some [h]
       ∧ fst <$> Sub_select_resp c hs' = Some (Sub_returned (inl h))
       ∧ heightReqs hs' !! k = None.
Proof.
  intros [Hnd Hfree] Hl Hrun Hk Hc Hlo Hhi. unfold Pub_with in Hrun.
  set (from := to_uint64 (header_Height h0)) in *.
  set (to := to_uint64 (header_Height (List.last (h0 :: rest) h0))) in *.
  destruct (decide _) as [|_]; [done|].
  assert (Hsel : ∀ h, chans hs' !! c = Some [h] →
            fst <$> Sub_select_resp c hs' = Some (Sub_returned (inl h))).
  { intros h Hh. unfold Sub_select_resp. by rewrite Hh. }
  destruct (decide (length (h0 :: rest) = 1%nat)) as [Hone|Hmany].
  - assert (k = from) as ->.
    { destruct rest; [|simpl in Hone; lia]. simpl in to. lia. }
    simpl in Hrun. rewrite Hk in Hrun.
    rewrite (pending_chans_lookup _ _ _ Hk) in Hnd, Hfree.
    apply NoDup_app in Hnd as (Hnd0 & _ & _).
    apply Forall_app in Hfree as [Hfree0 _].
    destruct (send_all_free reqs h0 (chans hs) Hnd0 Hfree0) as (μ' & Hsend & Hin & _).
    rewrite Hsend in Hrun. injection Hrun as <-.
    exists h0. rewrite Z.sub_diag. split; [done|]. simpl.
    split; [by apply Hin|]. split; [apply Hsel; by apply Hin|apply lookup_delete_eq].
  - simpl in Hrun. rewrite <- (pending_chans_perm _ _ Hl) in Hnd, Hfree.
    destruct (Pub_range l (h0 :: rest) from to (heightReqs hs) (chans hs))
      as [r [m' μ']] eqn:Hloop.
    injection Hrun as -> <-.
    destruct (Pub_range_filled _ _ _ _ _ _ _ _ Hnd Hfree Hloop k reqs c)
      as (h & Hh & Hbuf); [by apply (visit_of_elem l (heightReqs hs))|done|done|].
    exists h. split; [done|]. simpl. split; [done|]. split; [by apply Hsel|].
    rewrite (Pub_range_lookup _ _ _ _ _ _ _ _ k Hloop).
    apply decide_True. split; [by eapply visit_of_key|done].
Qed.

(** X5: a caller that [Sub] parks at a height above the current one, in a
    state with distinct and free registered channels, is handed the header
    at the offset of its height by a [Pub] that returns and whose batch
    spans that height. *)
Theorem Sub_then_Pub_round_trip l h0 rest hs hs' k :
  chans_wf hs →
  Height hs < k →
  visit_of l (heightReqs (Sub_enter k hs).2) →
  Pub_with header_Height l (h0 :: rest) (Sub_enter k hs).2 = (Pub_returned, hs') →
  to_uint64 (header_Height h0) ≤ k →
  k ≤ to_uint64 (header_Height (List.last (h0 :: rest) h0)) →
  ∃ resp h,
    (Sub_enter k hs).1 = Sub_at_select resp
    ∧ (h0 :: rest) !! Z.to_nat (k - to_uint64 (header_Height h0)) = Some h
    ∧ fst <$> Sub_select_resp resp hs' = Some (Sub_returned (inl h)).
Proof.
  intros Hwf Hlt Hl Hrun Hlo Hhi.
  pose proof (chans_wf_enter k hs Hwf) as [Hnd Hfree].
  unfold Sub_enter, Height in *. rewrite !decide_False in * by lia.
  cbn [fst snd heightReqs chans height] in *.
  exists (length (chans hs)).
  set (reqs := bucket (heightReqs hs) k ++ [length (chans hs)]) in *.
  assert (Hk : <[k := reqs]> (heightReqs hs) !! k = Some reqs) by apply lookup_insert_eq.
  assert (Hc : length (chans hs) ∈ reqs).
  { apply elem_of_app. right. apply list_elem_of_singleton. done. }
  unfold Pub_with in Hrun.
  set (from := to_uint64 (header_Height h0)) in *.
  set (to := to_uint64 (header_Height (List.last (h0 :: rest) h0))) in *.
  destruct (decide _) as [|_]; [done|].
  assert (Hsel : ∀ (c : chan) h, chans hs' !! c = Some [h] →
            fst <$> Sub_select_resp c hs' = Some (Sub_returned (inl h))).
  { intros c h Hh. unfold Sub_select_resp. by rewrite Hh. }
  destruct (decide (length (h0 :: rest) = 1%nat)) as [Hone|Hmany].
  - assert (k = from) as Hkf.
    { destruct rest; [|simpl in Hone; lia]. simpl in to. lia. }
    simpl in Hrun. rewrite <- Hkf, Hk in Hrun.
    rewrite (pending_chans_lookup _ _ _ Hk) in Hnd, Hfree.
    apply NoDup_app in Hnd as (Hnd0 & _ & _).
    apply Forall_app in Hfree as [Hfree0 _].
    destruct (send_all_free reqs h0 _ Hnd0 Hfree0) as (μ' & Hsend & Hin & _).
    rewrite Hsend in Hrun. injection Hrun as <-.
    exists h0. split; [done|]. replace (k - from) with 0 by lia. split; [done|].
    apply Hsel. simpl. by apply Hin.
  - simpl in Hrun. rewrite <- (pending_chans_perm _ _ Hl) in Hnd, Hfree.
    match type of Hrun with
    | context [Pub_range ?a ?b ?c ?d ?e ?f] =>
        destruct (Pub_range a b c d e f) as [r [m' μ']] eqn:Hloop
    end.
    injection Hrun as -> <-.
    destruct (Pub_range_filled _ _ _ _ _ _ _ _ Hnd Hfree Hloop k reqs (length (chans hs)))
      as (h & Hh & Hbuf); [by apply (visit_of_elem l _ k reqs Hl)|done|done|].
    exists h. split; [done|]. split; [done|]. by apply Hsel.
Qed.

End heightSub_props.

(** **** The runs *)

Example two_waiters_first : two_waiters.first.1 = Sub_at_select 0%nat.
Proof. reflexivity. Qed.

Example two_waiters_map :
  heightReqs two_waiters.second.2 = {[ 5 := [0%nat; 1%nat] ]}.
Proof. vm_compute. reflexivity. Qed.

(** [SetHeight(10)]; [Sub(ctx, 10)] returns the elapsed height; [Sub(ctx, 11)]
    parks; [Pub(header@11)] hands it that header and [Height()] is 11. *)
Example one_waiter_run :
  (Sub_enter 10 one_waiter.hs0).1 = Sub_returned (inr errElapsedHeight)
  ∧ one_waiter.waiting.1 = Sub_at_select 0%nat
  ∧ Sub_select_resp 0%nat one_waiter.waiting.2 = None
  ∧ one_waiter.published.1 = Pub_returned
  ∧ Height one_waiter.published.2 = 11
  ∧ heightReqs one_waiter.published.2 = ∅
  ∧ fst <$> Sub_select_resp 0%nat one_waiter.published.2 = Some (Sub_returned (inl 11)).
Proof. vm_compute. repeat split; reflexivity. Qed.

Example range_waiters_run :
  heightReqs range_waiters.hs = {[ 2 := [0%nat; 1%nat]; 3 := [2%nat]; 9 := [3%nat] ]}
  ∧ Pub (λ h : Z, h) range_waiters.headers range_waiters.hs
    = (Pub_returned,
       {| height := 4; heightReqs := {[ 9 := [3%nat] ]};
          chans := [[2]; [2]; [3]; []] |}).
Proof. vm_compute. split; reflexivity. Qed.

(** C1: two callers wait for height 5 and the second one is cancelled
    before anything is published.  Its cleanup deletes the bucket of
    height 5 with the registration of the first caller in it: the map does
    not return to what it was before the second call, and the publication
    of heights 1 to 5 that follows leaves the channel of the first caller
    empty, so that caller is not served. *)
Theorem Sub_cancel_drops_other_waiters :
  two_waiters.first.1 = Sub_at_select 0%nat
  ∧ heightReqs two_waiters.first.2 = {[ 5 := [0%nat] ]}
  ∧ two_waiters.second.1 = Sub_at_select 1%nat
  ∧ heightReqs two_waiters.second.2 = {[ 5 := [0%nat; 1%nat] ]}
  ∧ heightReqs two_waiters.cancelled.2 = ∅
  ∧ heightReqs two_waiters.cancelled.2 ≠ heightReqs two_waiters.first.2
  ∧ two_waiters.published.1 = Pub_returned
  ∧ Height two_waiters.published.2 = 5
  ∧ chans two_waiters.published.2 !! 0%nat = Some []
  ∧ Sub_select_resp 0%nat two_waiters.published.2 = None.
Proof. vm_compute. repeat split; try reflexivity. discriminate. Qed.

Lemma Sub_elapsed_height_witness :
  Sub_enter 10 one_waiter.hs0 = (Sub_returned (inr errElapsedHeight), one_waiter.hs0)
  ∧ heightReqs (Sub_enter 10 one_waiter.hs0).2 = heightReqs one_waiter.hs0.
Proof. apply (Sub_elapsed_height 10 one_waiter.hs0). simpl. lia. Defined.

Lemma Pub_fatal_iff_witness :
  (Pub_with (λ h : Z, h) [] [7] one_waiter.hs0).2 = one_waiter.hs0.
Proof.
  destruct (Pub_fatal_iff (λ h : Z, h) [] one_waiter.hs0) as [_ Hcons].
  destruct (Hcons 7 []) as (_ & _ & Hsame). apply Hsame. vm_compute. reflexivity.
Defined.

Lemma keys_above_height_invariant_witness :
  keys_above_height (Sub_enter 12 one_waiter.waiting.2).2.
Proof.
  destruct (keys_above_height_invariant (λ h : Z, h) one_waiter.waiting.2)
    as (Henter & _).
  - simpl. lia.
  - apply (bool_decide_unpack _). vm_compute. exact I.
  - apply Henter.
Defined.

Lemma Pub_fulfils_range_witness :
  ∃ hs', Pub (λ h : Z, h) range_waiters.headers range_waiters.hs = (Pub_returned, hs')
         ∧ Height hs' = 4
         ∧ heightReqs hs' !! 2 = None
         ∧ heightReqs hs' !! 9 = heightReqs range_waiters.hs !! 9.
Proof.
  destruct (Pub_fulfils_range (λ h : Z, h)
              (map_to_list (heightReqs range_waiters.hs))
              range_waiters.headers range_waiters.hs 1 4)
    as (hs' & Hrun & Hheight & Hin & Hout & _).
  - apply visit_of_map_to_list.
  - apply (bool_decide_unpack _). vm_compute. exact I.
  - discriminate.
  - simpl. lia.
  - reflexivity.
  - reflexivity.
  - lia.
  - intros i h. unfold range_waiters.headers.
    destruct i as [|[|[|[|i]]]]; simpl; intros [= <-]; reflexivity.
  - exists hs'. split; [exact Hrun|]. split; [exact Hheight|]. split.
    + apply (Hin 2 [0%nat; 1%nat]); [vm_compute; reflexivity|lia].
    + apply Hout. lia.
Defined.

Lemma Pub_never_blocks_witness :
  (Pub (λ h : Z, h) range_waiters.headers range_waiters.hs).1 ≠ Pub_blocked.
Proof.
  apply (Pub_never_blocks (λ h : Z, h) newHeightSub chans_wf_new range_waiters.hs).
  - unfold range_waiters.hs. repeat apply hs_reach_enter. apply hs_reach_init.
  - apply visit_of_map_to_list.
Defined.

Lemma Pub_panics_iff_witness :
  (Pub (λ h : Z, h) [1; 9] range_waiters.hs).1 = Pub_panic.
Proof.
  apply (Pub_panics_iff (λ h : Z, h) (map_to_list (heightReqs range_waiters.hs))
           [1; 9] range_waiters.hs).
  - apply (bool_decide_unpack _). vm_compute. exact I.
  - apply visit_of_map_to_list.
  - exists 1, [9], 3, [2%nat]. repeat split; try (vm_compute; congruence).
Defined.

Lemma Pub_single_agrees_with_loop_witness :
  Pub (λ h : Z, h) [11] one_waiter.waiting.2
  = let '(r, (m', μ')) :=
      Pub_range (map_to_list (heightReqs one_waiter.waiting.2)) [11] 11 11
                (heightReqs one_waiter.waiting.2) (chans one_waiter.waiting.2) in
    (r, {| height := 11; heightReqs := m'; chans := μ' |}).
Proof.
  apply (Pub_single_agrees_with_loop (λ h : Z, h)
           (map_to_list (heightReqs one_waiter.waiting.2)) 11 one_waiter.waiting.2).
  - apply visit_of_map_to_list.
  - reflexivity.
Defined.

Lemma Pub_serves_waiters_witness :
  ∃ h, range_waiters.headers !! Z.to_nat (2 - to_uint64 1) = Some h
       ∧ chans (Pub (λ h : Z, h) range_waiters.headers range_waiters.hs).2 !! 1%nat
         = Some [h]
       ∧ fst <$> Sub_select_resp 1%nat
                   (Pub (λ h : Z, h) range_waiters.headers range_waiters.hs).2
         = Some (Sub_returned (inl h))
       ∧ heightReqs (Pub (λ h : Z, h) range_waiters.headers range_waiters.hs).2 !! 2
         = None.
Proof.
  apply (Pub_serves_waiters (λ h : Z, h) (map_to_list (heightReqs range_waiters.hs))
           1 [2; 3; 4] range_waiters.hs _ 2 [0%nat; 1%nat] 1%nat).
  - apply (bool_decide_unpack _). vm_compute. exact I.
  - apply visit_of_map_to_list.
  - vm_compute. reflexivity.
  - vm_compute. reflexivity.
  - apply (bool_decide_unpack _). vm_compute. exact I.
  - vm_compute. congruence.
  - vm_compute. congruence.
Defined.

Lemma Sub_then_Pub_round_trip_witness :
  ∃ resp h,
    (Sub_enter 11 one_waiter.hs0).1 = Sub_at_select resp
    ∧ [11] !! Z.to_nat (11 - to_uint64 11) = Some h
    ∧ fst <$> Sub_select_resp resp one_waiter.published.2 = Some (Sub_returned (inl h)).
Proof.
  apply (Sub_then_Pub_round_trip (λ h : Z, h)
           (map_to_list (heightReqs (Sub_enter 11 one_waiter.hs0).2))
           11 [] one_waiter.hs0 one_waiter.published.2 11).
  - apply (bool_decide_unpack _). vm_compute. exact I.
  - simpl. lia.
  - apply visit_of_map_to_list.
  - vm_compute. reflexivity.
  - vm_compute. congruence.
  - vm_compute. congruence.
Defined.

Lemma Sub_cancel_alone_witness :
  ∃ resp, (Sub_enter 11 one_waiter.hs0).1 = Sub_at_select resp
          ∧ heightReqs (Sub_select_done 11 (Sub_enter 11 one_waiter.hs0).2).2
            = heightReqs one_waiter.hs0.
Proof.
  apply (Sub_cancel_alone 11 one_waiter.hs0).
  - simpl. lia.
  - reflexivity.
Defined.

Lemma keys_above_height_interleaved_witness :
  keys_above_height
    (Pub_locked (map_to_list (heightReqs interleaved.hs2)) [11; 12] 11 12
                interleaved.hs2).2.
Proof.
  apply (keys_above_height_interleaved (λ h : Z, h)
           (map_to_list (heightReqs interleaved.hs2)) [11; 12]
           one_waiter.waiting.2 11 12 interleaved.hs1 interleaved.hs2).
  - simpl. lia.
  - apply (bool_decide_unpack _). vm_compute. exact I.
  - reflexivity.
  - unfold interleaved.hs2. apply Sub_steps_enter, Sub_steps_enter, Sub_steps_refl.
  - apply visit_of_map_to_list.
  - vm_compute. reflexivity.
Defined.

End store_props.

(** * Properties of PeerTracker *)
Module p2p_props.
Import p2p.

Implicit Types (p : PeerTracker) (m : gmap peer_ID peerStat).
Implicit Types (l ld lt : list (peer_ID * peerStat)) (id pID : peer_ID).

(** **** The two sweeps of a cycle *)

(** The head of the visiting order does not decide for another key, nor
    when its own test fails. *)
Local Ltac skip_head :=
  apply decide_ext; rewrite Exists_cons; simpl;
  split; [by right | intros [[? ?]|?]; [first [congruence|contradiction]|done]].

Lemma gc_disconnected_lookup_gen l now m id :
  gc_disconnected l now m !! id
  = if decide (Exists (λ e, e.1 = id ∧ Before (pruneDeadline e.2) now) l)
    then None else m !! id.
Proof.
  revert m. induction l as [|[id0 peer] l IH]; intros m; simpl.
  - done.
  - destruct (decide (Before (pruneDeadline peer) now)) as [Hb|Hb]; rewrite IH.
    + destruct (decide (id = id0)) as [->|Hne].
      * rewrite lookup_delete_eq. rewrite (decide_True (P := Exists _ (_ :: _))).
        -- by destruct (decide _).
        -- by apply Exists_cons_hd.
      * rewrite lookup_delete_ne by done. skip_head.
    + skip_head.
Qed.

Lemma gc_tracked_lookup_gen l m ids id :
  (gc_tracked l m ids).1 !! id
  = if decide (Exists (λ e, e.1 = id ∧ at_or_below_default e.2) l)
    then None else m !! id.
Proof.
  revert m ids. induction l as [|[id0 peer] l IH]; intros m ids; simpl.
  - done.
  - destruct (SFleb (peerScore peer) defaultScore) eqn:Hs; rewrite IH.
    + destruct (decide (id = id0)) as [->|Hne].
      * rewrite lookup_delete_eq. rewrite (decide_True (P := Exists _ (_ :: _))).
        -- by destruct (decide _).
        -- by apply Exists_cons_hd.
      * rewrite lookup_delete_ne by done. skip_head.
    + unfold at_or_below_default. skip_head.
Qed.

(** The slice handed to the store: the identities that were kept, in the
    order of the visit. *)
Lemma gc_tracked_ids l m ids :
  (gc_tracked l m ids).2 = ids ++ (filter (λ e, ¬ at_or_below_default e.2) l).*1.
Proof.
  revert m ids. induction l as [|[id0 peer] l IH]; intros m ids; simpl.
  - by rewrite app_nil_r.
  - destruct (SFleb (peerScore peer) defaultScore) eqn:Hs; rewrite IH.
    + rewrite filter_cons_False; [done|]. unfold at_or_below_default. simpl. by intros [].
    + rewrite filter_cons_True.
      * rewrite fmap_cons, <- app_assoc. done.
      * unfold at_or_below_default. simpl. congruence.
Qed.

Lemma gc_disconnected_lookup ld now m id :
  visit_of ld m →
  gc_disconnected ld now m !! id
  = kept_unless (λ peer, Before (pruneDeadline peer) now) (m !! id).
Proof.
  intros Hl. rewrite gc_disconnected_lookup_gen. unfold kept_unless.
  destruct (m !! id) as [peer|] eqn:Hid.
  - apply decide_ext. rewrite Exists_exists. split.
    + intros ([id' peer'] & Hin & <- & Hb). simpl in *.
      apply (visit_of_elem ld m) in Hin; [|done]. congruence.
    + intros Hb. exists (id, peer). split; [|done]. by apply (visit_of_elem ld m).
  - by destruct (decide _).
Qed.

Lemma gc_tracked_lookup lt m ids id :
  visit_of lt m →
  (gc_tracked lt m ids).1 !! id = kept_unless at_or_below_default (m !! id).
Proof.
  intros Hl. rewrite gc_tracked_lookup_gen. unfold kept_unless.
  destruct (m !! id) as [peer|] eqn:Hid.
  - apply decide_ext. rewrite Exists_exists. split.
    + intros ([id' peer'] & Hin & <- & Hb). simpl in *.
      apply (visit_of_elem lt m) in Hin; [|done]. congruence.
    + intros Hb. exists (id, peer). split; [|done]. by apply (visit_of_elem lt m).
  - by destruct (decide _).
Qed.

Lemma gc_cycle_with_fields ld lt now p :
  trackedPeers (gc_cycle_with ld lt now p) = (gc_tracked lt (trackedPeers p) []).1
  ∧ disconnectedPeers (gc_cycle_with ld lt now p)
    = gc_disconnected ld now (disconnectedPeers p)
  ∧ pidstore (gc_cycle_with ld lt now p)
    = (λ puts, puts ++ [(gc_tracked lt (trackedPeers p) []).2]) <$> pidstore p.
Proof.
  unfold gc_cycle_with, persistPeers.
  destruct (gc_tracked lt (trackedPeers p) []) as [t ids]. simpl.
  by destruct (pidstore p).
Qed.

(** C8: a cycle of [gc], whatever the orders in which it visits the two
    maps, removes the disconnected entries whose [pruneDeadline] is before
    [now] and the tracked entries whose score is [<= defaultScore], and
    nothing else: every other entry is there afterwards with the stat it
    had.  When there is a store, it receives one [Put], of the identities
    of the tracked peers that are left, each once. *)
Theorem gc_cycle_removes_exactly ld lt now p :
  visit_of ld (disconnectedPeers p) →
  visit_of lt (trackedPeers p) →
  (∀ id, disconnectedPeers (gc_cycle_with ld lt now p) !! id
         = kept_unless (λ peer, Before (pruneDeadline peer) now)
                       (disconnectedPeers p !! id))
  ∧ (∀ id, trackedPeers (gc_cycle_with ld lt now p) !! id
           = kept_unless at_or_below_default (trackedPeers p !! id))
  ∧ (∀ puts, pidstore p = Some puts →
       ∃ ids, pidstore (gc_cycle_with ld lt now p) = Some (puts ++ [ids])
              ∧ NoDup ids
              ∧ ∀ id, id ∈ ids
                      ↔ is_Some (trackedPeers (gc_cycle_with ld lt now p) !! id))
  ∧ (pidstore p = None → pidstore (gc_cycle_with ld lt now p) = None).
Proof.
  intros Hld Hlt.
  destruct (gc_cycle_with_fields ld lt now p) as (Ht & Hd & Hs).
  rewrite Ht, Hd, Hs. split; [|split; [|split]].
  - intros id. by apply gc_disconnected_lookup.
  - intros id. by apply gc_tracked_lookup.
  - intros puts ->. eexists. split; [done|]. rewrite gc_tracked_ids. simpl. split.
    + eapply sublist_NoDup; [by eapply visit_of_NoDup|].
      apply fmap_sublist, sublist_filter.
    + intros id. rewrite (gc_tracked_lookup lt _ [] id Hlt). unfold kept_unless.
      rewrite list_elem_of_fmap. split.
      * intros ([id' peer] & -> & Hin). apply list_elem_of_filter in Hin as [Hkeep Hin].
        simpl in *. apply (visit_of_elem lt (trackedPeers p)) in Hin; [|done].
        rewrite Hin. by rewrite decide_False.
      * destruct (trackedPeers p !! id) as [peer|] eqn:Hid; [|by intros []].
        destruct (decide (at_or_below_default peer)) as [|Hkeep]; [by intros []|].
        intros _. exists (id, peer). split; [done|]. apply list_elem_of_filter.
        split; [done|]. by apply (visit_of_elem lt (trackedPeers p)).
  - by intros ->.
Qed.

(** **** A peer is in one map at most *)

Lemma peers_disjoint_new store : peers_disjoint (NewPeerTracker store).
Proof. unfold peers_disjoint. simpl. apply map_disjoint_empty_l. Qed.

Lemma peers_disjoint_connected h pID p :
  peers_disjoint p → peers_disjoint (connected h pID p).
Proof.
  unfold peers_disjoint, connected. intros Hdisj.
  destruct (decide (host_ID h = pID)); [done|].
  destruct (existsb _ _); [done|].
  destruct (decide (overfilled p)); [done|].
  rewrite map_disjoint_alt in Hdisj |- *.
  destruct (disconnectedPeers p !! pID) as [stats|] eqn:Hd; simpl; intros id.
  - destruct (decide (id = pID)) as [->|Hne].
    + right. apply lookup_delete_eq.
    + rewrite lookup_insert_ne, lookup_delete_ne by done. apply Hdisj.
  - destruct (decide (id = pID)) as [->|Hne]; [by right|].
    rewrite lookup_insert_ne by done. apply Hdisj.
Qed.

Lemma peers_disjoint_disconnected now pID p :
  peers_disjoint p → peers_disjoint (disconnected now pID p).
Proof.
  unfold peers_disjoint, disconnected. intros Hdisj.
  destruct (trackedPeers p !! pID) as [stats|] eqn:Ht; [|done]. simpl.
  rewrite map_disjoint_alt in Hdisj |- *. intros id.
  destruct (decide (id = pID)) as [->|Hne].
  - left. apply lookup_delete_eq.
  - rewrite lookup_insert_ne, lookup_delete_ne by done. apply Hdisj.
Qed.

Lemma peers_disjoint_gc ld lt now p :
  peers_disjoint p → peers_disjoint (gc_cycle_with ld lt now p).
Proof.
  unfold peers_disjoint. intros Hdisj.
  destruct (gc_cycle_with_fields ld lt now p) as (-> & -> & _).
  rewrite map_disjoint_alt in Hdisj |- *. intros id.
  rewrite gc_tracked_lookup_gen, gc_disconnected_lookup_gen.
  destruct (Hdisj id) as [-> | ->]; [left|right]; by destruct (decide _).
Qed.

Lemma peers_disjoint_blockPeer block_err close_err pID p :
  peers_disjoint p → peers_disjoint (blockPeer block_err close_err pID p).2.
Proof.
  unfold peers_disjoint. simpl. rewrite !map_disjoint_alt. intros Hdisj id.
  destruct (decide (id = pID)) as [->|Hne]; [left; apply lookup_delete_eq|].
  rewrite !lookup_delete_ne by done. apply Hdisj.
Qed.

Lemma peers_disjoint_score pID s p :
  peers_disjoint p → peers_disjoint (update_score pID s p).
Proof.
  unfold peers_disjoint. simpl. rewrite !map_disjoint_alt. intros Hdisj id.
  rewrite !lookup_alter_None. apply Hdisj.
Qed.

(** C9: in every state of a tracker no peer is in both [trackedPeers] and
    [disconnectedPeers]; [connected], [disconnected], a cycle of [gc] and
    [blockPeer] each keep the two maps disjoint. *)
Theorem peers_disjoint_invariant p :
  (∀ store, reachable store p → peers_disjoint p)
  ∧ (peers_disjoint p →
       (∀ h pID, peers_disjoint (connected h pID p))
       ∧ (∀ now pID, peers_disjoint (disconnected now pID p))
       ∧ (∀ ld lt now, peers_disjoint (gc_cycle_with ld lt now p))
       ∧ (∀ block_err close_err pID,
            peers_disjoint (blockPeer block_err close_err pID p).2)).
Proof.
  split.
  - intros store Hreach.
    induction Hreach as [|h pID p _ IH|now pID p _ IH|ld lt now p _ IH _ _
                         |block_err close_err pID p _ IH|pID s p _ IH].
    + apply peers_disjoint_new.
    + by apply peers_disjoint_connected.
    + by apply peers_disjoint_disconnected.
    + by apply peers_disjoint_gc.
    + by apply peers_disjoint_blockPeer.
    + by apply peers_disjoint_score.
  - intros Hdisj. repeat split; intros.
    + by apply peers_disjoint_connected.
    + by apply peers_disjoint_disconnected.
    + by apply peers_disjoint_gc.
    + by apply peers_disjoint_blockPeer.
Qed.

(** **** connected *)

(** What [connected] does once its three guards have let the call through. *)
Lemma connected_past_guards h pID p :
  host_ID h ≠ pID →
  existsb (λ transient : bool, transient) (ConnsToPeer h pID) = false →
  ¬ overfilled p →
  connected h pID p
  = match disconnectedPeers p !! pID with
    | None =>
        {| trackedPeers :=
             <[pID := {| peerID := pID; peerScore := defaultScore;
                         pruneDeadline := zero_time |}]> (trackedPeers p);
           disconnectedPeers := disconnectedPeers p;
           pidstore := pidstore p |}
    | Some stats =>
        {| trackedPeers := <[pID := stats]> (trackedPeers p);
           disconnectedPeers := delete pID (disconnectedPeers p);
           pidstore := pidstore p |}
    end.
Proof.
  intros Hself Htransient Hroom. unfold connected.
  rewrite decide_False by done. rewrite Htransient. by rewrite decide_False.
Qed.

(** C7: when the two maps hold more than [maxPeerTrackerSize] peers together
    and more of them are tracked than disconnected, [connected] returns the
    tracker as it is, whoever the peer; a peer that was in neither map is
    in neither map afterwards. *)
Theorem connected_overfilled h pID p :
  overfilled p →
  connected h pID p = p
  ∧ (trackedPeers p !! pID = None → disconnectedPeers p !! pID = None →
     trackedPeers (connected h pID p) !! pID = None
     ∧ disconnectedPeers (connected h pID p) !! pID = None).
Proof.
  intros Hfull.
  assert (Hsame : connected h pID p = p).
  { unfold connected. destruct (decide _); [done|]. destruct (existsb _ _); [done|].
    by rewrite decide_True. }
  rewrite Hsame. done.
Qed.

(** A second [connected] for a tracked peer writes a new stat over the one
    the tracker has. *)
Lemma connected_tracked_again h pID p stats :
  host_ID h ≠ pID →
  existsb (λ transient : bool, transient) (ConnsToPeer h pID) = false →
  ¬ overfilled p →
  trackedPeers p !! pID = Some stats → disconnectedPeers p !! pID = None →
  trackedPeers (connected h pID p) !! pID
  = Some {| peerID := pID; peerScore := defaultScore; pruneDeadline := zero_time |}
  ∧ dom (trackedPeers (connected h pID p)) = dom (trackedPeers p)
  ∧ disconnectedPeers (connected h pID p) = disconnectedPeers p.
Proof.
  intros Hself Htransient Hroom Ht Hd.
  rewrite connected_past_guards by done. rewrite Hd. simpl.
  split; [apply lookup_insert_eq|]. split; [|done].
  rewrite dom_insert_L. apply elem_of_dom_2 in Ht.
  apply subseteq_union_1_L. by apply singleton_subseteq_l.
Qed.

(** C3: peer ["a"] connects to a new tracker, its score is raised to 2, and
    a second connect notification arrives for it.  The peer is tracked and
    not disconnected before that second call, and the call replaces its stat
    by a new one with the default score: the tracker is not the one before
    the call and the score 2 is lost. *)
Theorem connected_again_resets_score :
  reachable None rewarded.p2
  ∧ trackedPeers rewarded.p2 !! "a"
    = Some {| peerID := "a"; peerScore := score_two; pruneDeadline := zero_time |}
  ∧ disconnectedPeers rewarded.p2 !! "a" = None
  ∧ rewarded.p3 = connected plain_host "a" rewarded.p2
  ∧ trackedPeers rewarded.p3 !! "a"
    = Some {| peerID := "a"; peerScore := defaultScore; pruneDeadline := zero_time |}
  ∧ rewarded.p3 ≠ rewarded.p2.
Proof.
  split; [repeat constructor|].
  split; [vm_compute; reflexivity|]. split; [vm_compute; reflexivity|].
  split; [reflexivity|]. split; [vm_compute; reflexivity|].
  intros Heq. apply (f_equal (λ p, peerScore <$> trackedPeers p !! "a")) in Heq.
  vm_compute in Heq. discriminate.
Qed.

(** C4, as stated, fails twice.  With the tracker overfilled, the
    disconnected peer ["gone"] that reconnects stays in [disconnectedPeers]
    and is not tracked.  And peer ["a"], which disconnected at time 1000,
    comes back to [trackedPeers] with the deadline it was given then, not a
    cleared one. *)
Lemma connected_reconnect_counterexample :
  (disconnectedPeers crowded.p !! "gone" = Some crowded.gone
   ∧ host_ID plain_host ≠ "gone"
   ∧ existsb (λ transient : bool, transient) (ConnsToPeer plain_host "gone") = false
   ∧ trackedPeers (connected plain_host "gone" crowded.p) !! "gone" = None
   ∧ disconnectedPeers (connected plain_host "gone" crowded.p) !! "gone"
     = Some crowded.gone)
  ∧ (disconnectedPeers reconnect.p3 !! "a"
     = Some {| peerID := "a"; peerScore := score_two;
               pruneDeadline := 1000 + maxAwaitingTime |}
     ∧ ¬ overfilled reconnect.p3
     ∧ trackedPeers reconnect.p4 !! "a"
       = Some {| peerID := "a"; peerScore := score_two;
                 pruneDeadline := 1000 + maxAwaitingTime |}
     ∧ 1000 + maxAwaitingTime ≠ zero_time).
Proof.
  split.
  - split; [vm_compute; reflexivity|]. split; [discriminate|].
    split; [reflexivity|]. split; vm_compute; reflexivity.
  - split; [vm_compute; reflexivity|]. split.
    + apply (bool_decide_unpack _). vm_compute. exact I.
    + split; [vm_compute; reflexivity|]. vm_compute. discriminate.
Qed.

(** C4, amended: for a peer that is not the host and has no transient
    connection, and a tracker that is not overfilled, [connected] moves the
    stat of a disconnected peer to [trackedPeers] as it is, score and
    deadline, and removes it from [disconnectedPeers]; for a peer in neither
    map it tracks a new stat with the default score.  So a peer with any
    score that disconnects and reconnects, with or without a cycle of [gc]
    in between that finds its deadline not passed, is tracked again with
    the score it had, as long as the tracker is not overfilled when it
    reconnects. *)
Theorem connected_restores_stat h pID p :
  host_ID h ≠ pID →
  existsb (λ transient : bool, transient) (ConnsToPeer h pID) = false →
  (¬ overfilled p →
     (∀ stats, disconnectedPeers p !! pID = Some stats →
        trackedPeers (connected h pID p) !! pID = Some stats
        ∧ disconnectedPeers (connected h pID p) !! pID = None)
     ∧ (trackedPeers p !! pID = None → disconnectedPeers p !! pID = None →
        trackedPeers (connected h pID p) !! pID
        = Some {| peerID := pID; peerScore := defaultScore;
                  pruneDeadline := zero_time |}
        ∧ disconnectedPeers (connected h pID p) = disconnectedPeers p))
  ∧ (∀ stats now,
       trackedPeers p !! pID = Some stats →
       (¬ overfilled (disconnected now pID p) →
          peerScore <$> trackedPeers (connected h pID (disconnected now pID p)) !! pID
          = Some (peerScore stats))
       ∧ (∀ ld lt now',
            visit_of ld (disconnectedPeers (disconnected now pID p)) →
            ¬ Before (now + maxAwaitingTime) now' →
            ¬ overfilled (gc_cycle_with ld lt now' (disconnected now pID p)) →
            peerScore <$> trackedPeers
              (connected h pID (gc_cycle_with ld lt now' (disconnected now pID p))) !! pID
            = Some (peerScore stats))).
Proof.
  intros Hself Htransient. split.
  - intros Hroom. rewrite connected_past_guards by done. split.
    + intros stats ->. simpl. split; [apply lookup_insert_eq|apply lookup_delete_eq].
    + intros _ ->. simpl. split; [apply lookup_insert_eq|done].
  - intros stats now Ht.
    assert (Hd : disconnectedPeers (disconnected now pID p) !! pID
                 = Some {| peerID := peerID stats; peerScore := peerScore stats;
                           pruneDeadline := now + maxAwaitingTime |}).
    { unfold disconnected. rewrite Ht. simpl. apply lookup_insert_eq. }
    split.
    + intros Hroom. rewrite connected_past_guards by done. rewrite Hd. simpl.
      by rewrite lookup_insert_eq.
    + intros ld lt now' Hld Hnotyet Hroom. rewrite connected_past_guards by done.
      destruct (gc_cycle_with_fields ld lt now' (disconnected now pID p))
        as (_ & Hfd & _).
      rewrite Hfd, (gc_disconnected_lookup ld now' _ pID Hld), Hd. simpl.
      rewrite decide_False by done. simpl. by rewrite lookup_insert_eq.
Qed.

(** **** blockPeer *)

(** The peer is in neither map afterwards, whatever the gater and the
    network answered. *)
Lemma blockPeer_removes block_err close_err pID p :
  trackedPeers (blockPeer block_err close_err pID p).2 !! pID = None
  ∧ disconnectedPeers (blockPeer block_err close_err pID p).2 !! pID = None
  ∧ (blockPeer block_err close_err pID p).2 = (blockPeer None None pID p).2.
Proof. simpl. split; [apply lookup_delete_eq|]. split; [apply lookup_delete_eq|done]. Qed.

(** **** Scores *)

Example scores_are_float32 : is_float32 defaultScore ∧ is_float32 score_two.
Proof. split; reflexivity. Qed.

Example score_comparisons :
  SFleb defaultScore defaultScore = true
  ∧ SFleb score_two defaultScore = false
  ∧ SFleb (S754_zero false) defaultScore = true
  ∧ SFleb S754_nan defaultScore = false.
Proof. repeat split. Qed.

(** **** The runs *)

(** A peer that connects to an empty tracker and is never rewarded is
    gone after the next cycle. *)
Example unrewarded_peer_swept :
  trackedPeers (gc_cycle 60 rewarded.p1) = ∅
  ∧ disconnectedPeers (gc_cycle 60 rewarded.p1) = ∅.
Proof. vm_compute. split; reflexivity. Qed.

Example rewarded_run :
  trackedPeers rewarded.p2 = {[ "a" := {| peerID := "a"; peerScore := score_two;
                                           pruneDeadline := zero_time |} ]}
  ∧ trackedPeers rewarded.p3 = {[ "a" := {| peerID := "a"; peerScore := defaultScore;
                                             pruneDeadline := zero_time |} ]}.
Proof. vm_compute. split; reflexivity. Qed.

Example crowded_sizes :
  size (trackedPeers crowded.p) = 101%nat ∧ size (disconnectedPeers crowded.p) = 1%nat.
Proof. vm_compute. split; reflexivity. Qed.

Example sweep_run :
  gc_cycle 15 sweep.p
  = {| trackedPeers := {[ "b" := sweep.stat "b" score_two 0 ]};
       disconnectedPeers := {[ "d" := sweep.stat "d" score_two 20 ]};
       pidstore := Some [["b"]] |}.
Proof. vm_compute. reflexivity. Qed.

Lemma gc_cycle_removes_exactly_witness :
  trackedPeers (gc_cycle 15 sweep.p) !! "a" = None
  ∧ disconnectedPeers (gc_cycle 15 sweep.p) !! "d" = Some (sweep.stat "d" score_two 20).
Proof.
  destruct (gc_cycle_removes_exactly
              (map_to_list (disconnectedPeers sweep.p))
              (map_to_list (trackedPeers sweep.p)) 15 sweep.p)
    as (Hd & Ht & _).
  - apply visit_of_map_to_list.
  - apply visit_of_map_to_list.
  - split.
    + unfold gc_cycle. rewrite Ht. vm_compute. reflexivity.
    + unfold gc_cycle. rewrite Hd. vm_compute. reflexivity.
Defined.

Lemma peers_disjoint_invariant_witness :
  peers_disjoint (disconnected 1000 "a" rewarded.p2).
Proof.
  destruct (peers_disjoint_invariant rewarded.p2) as [Hreach Hkeep].
  destruct Hkeep as (_ & Hdisc & _).
  - apply (Hreach None). repeat constructor.
  - apply Hdisc.
Defined.

Lemma connected_overfilled_witness :
  connected plain_host "new" crowded.p = crowded.p.
Proof.
  apply (connected_overfilled plain_host "new" crowded.p).
  apply (bool_decide_unpack _). vm_compute. exact I.
Defined.

Lemma connected_restores_stat_witness :
  trackedPeers reconnect.p4 !! "a"
  = Some {| peerID := "a"; peerScore := score_two;
            pruneDeadline := 1000 + maxAwaitingTime |}.
Proof.
  destruct (connected_restores_stat plain_host "a" reconnect.p3) as [Hmove _].
  - discriminate.
  - reflexivity.
  - destruct Hmove as [Hmove _].
    + apply (bool_decide_unpack _). vm_compute. exact I.
    + apply Hmove. vm_compute. reflexivity.
Defined.

(** **** What the operations leave alone *)

(** [connected] either returns the tracker as it is, or files under [pID]
    the stat found in [disconnectedPeers] or else a new one. *)
Lemma connected_cases h pID p :
  connected h pID p = p
  ∨ (host_ID h ≠ pID
     ∧ existsb (λ transient : bool, transient) (ConnsToPeer h pID) = false
     ∧ ¬ overfilled p
     ∧ connected h pID p
       = {| trackedPeers :=
              <[pID := default (new_stat pID) (disconnectedPeers p !! pID)]>
                (trackedPeers p);
            disconnectedPeers := delete pID (disconnectedPeers p);
            pidstore := pidstore p |}).
Proof.
  unfold connected. destruct (decide (host_ID h = pID)); [by left|].
  destruct (existsb _ _) eqn:Ht; [by left|].
  destruct (decide (overfilled p)); [by left|]. right.
  split; [done|]. split; [done|]. split; [done|].
  destruct (disconnectedPeers p !! pID) eqn:Hd; simpl; [done|].
  by rewrite delete_id.
Qed.

Lemma connected_other h pID p id :
  id ≠ pID →
  trackedPeers (connected h pID p) !! id = trackedPeers p !! id
  ∧ disconnectedPeers (connected h pID p) !! id = disconnectedPeers p !! id.
Proof.
  intros Hne. destruct (connected_cases h pID p) as [->|(_ & _ & _ & ->)]; [done|].
  simpl. by rewrite lookup_insert_ne, lookup_delete_ne.
Qed.

Lemma disconnected_other now pID p id :
  id ≠ pID →
  trackedPeers (disconnected now pID p) !! id = trackedPeers p !! id
  ∧ disconnectedPeers (disconnected now pID p) !! id = disconnectedPeers p !! id.
Proof.
  intros Hne. unfold disconnected. destruct (trackedPeers p !! pID); [|done].
  simpl. by rewrite lookup_insert_ne, lookup_delete_ne.
Qed.

Lemma disconnected_untracks now pID p :
  trackedPeers (disconnected now pID p) !! pID = None.
Proof.
  unfold disconnected. destruct (trackedPeers p !! pID) eqn:Ht; [|done].
  simpl. apply lookup_delete_eq.
Qed.

Lemma gc_cycle_with_subset ld lt now p id peer :
  (trackedPeers (gc_cycle_with ld lt now p) !! id = Some peer →
   trackedPeers p !! id = Some peer)
  ∧ (disconnectedPeers (gc_cycle_with ld lt now p) !! id = Some peer →
     disconnectedPeers p !! id = Some peer).
Proof.
  destruct (gc_cycle_with_fields ld lt now p) as (-> & -> & _).
  rewrite gc_tracked_lookup_gen, gc_disconnected_lookup_gen.
  split; by destruct (decide _).
Qed.

(** X8: [connected], [disconnected] and [blockPeer] for a peer leave the
    entries of every other peer in both maps as they were, and none of them
    writes to the store. *)
Theorem other_peers_untouched pID id p :
  id ≠ pID →
  (∀ h, trackedPeers (connected h pID p) !! id = trackedPeers p !! id
        ∧ disconnectedPeers (connected h pID p) !! id = disconnectedPeers p !! id
        ∧ pidstore (connected h pID p) = pidstore p)
  ∧ (∀ now, trackedPeers (disconnected now pID p) !! id = trackedPeers p !! id
            ∧ disconnectedPeers (disconnected now pID p) !! id
              = disconnectedPeers p !! id
            ∧ pidstore (disconnected now pID p) = pidstore p)
  ∧ (∀ block_err close_err,
       trackedPeers (blockPeer block_err close_err pID p).2 !! id = trackedPeers p !! id
       ∧ disconnectedPeers (blockPeer block_err close_err pID p).2 !! id
         = disconnectedPeers p !! id
       ∧ pidstore (blockPeer block_err close_err pID p).2 = pidstore p).
Proof.
  intros Hne. split; [|split].
  - intros h. destruct (connected_other h pID p id Hne) as [-> ->].
    split; [done|]. split; [done|].
    by destruct (connected_cases h pID p) as [->|(_ & _ & _ & ->)].
  - intros now. destruct (disconnected_other now pID p id Hne) as [-> ->].
    split; [done|]. split; [done|].
    unfold disconnected. by destruct (trackedPeers p !! pID).
  - intros block_err close_err. simpl. by rewrite !lookup_delete_ne.
Qed.

(** X9: [blockPeer] leaves the peer in neither map, whatever the gater and
    the network answered; and a peer that is in neither map stays out of
    both through [disconnected], cycles of [gc] and [blockPeer] for any
    peer and through [connected] for any other peer: only its own
    [connected] files it again. *)
Theorem only_connected_adds pID p :
  (∀ block_err close_err, untracked pID (blockPeer block_err close_err pID p).2)
  ∧ (untracked pID p →
       (∀ h q, q ≠ pID → untracked pID (connected h q p))
       ∧ (∀ now q, untracked pID (disconnected now q p))
       ∧ (∀ ld lt now, untracked pID (gc_cycle_with ld lt now p))
       ∧ (∀ block_err close_err q,
            untracked pID (blockPeer block_err close_err q p).2)).
Proof.
  unfold untracked. split.
  - intros block_err close_err. simpl. by rewrite !lookup_delete_eq.
  - intros [Ht Hd]. split; [|split; [|split]].
    + intros h q Hq. by destruct (connected_other h q p pID) as [-> ->].
    + intros now q. destruct (decide (pID = q)) as [->|Hq].
      * unfold disconnected. by rewrite Ht.
      * by destruct (disconnected_other now q p pID) as [-> ->].
    + intros ld lt now. split.
      * destruct (trackedPeers (gc_cycle_with ld lt now p) !! pID) as [peer|] eqn:E;
          [|done].
        destruct (gc_cycle_with_subset ld lt now p pID peer) as [Hs _].
        rewrite <- Ht. symmetry. by apply Hs.
      * destruct (disconnectedPeers (gc_cycle_with ld lt now p) !! pID) as [peer|] eqn:E;
          [|done].
        destruct (gc_cycle_with_subset ld lt now p pID peer) as [_ Hs].
        rewrite <- Hd. symmetry. by apply Hs.
    + intros block_err close_err q. simpl. split.
      * apply lookup_delete_None. by right.
      * apply lookup_delete_None. by right.
Qed.

(** X10: a second [disconnected] for a peer changes nothing, at whatever
    time it comes: the deadline set by the first one is kept. *)
Theorem disconnected_again now now' pID p :
  disconnected now' pID (disconnected now pID p) = disconnected now pID p.
Proof.
  unfold disconnected at 1. by rewrite disconnected_untracks.
Qed.

(** **** Stats and the identities they are filed under *)

Lemma stats_filed_connected h pID p : stats_filed p → stats_filed (connected h pID p).
Proof.
  intros Hf. destruct (connected_cases h pID p) as [->|(_ & _ & _ & ->)]; [done|].
  intros id peer. simpl. destruct (decide (id = pID)) as [->|Hne].
  - rewrite lookup_insert_eq, lookup_delete_eq. intros [[= <-]|?]; [|done].
    destruct (disconnectedPeers p !! pID) as [stats|] eqn:Hd; simpl; [|done].
    apply Hf. by right.
  - rewrite lookup_insert_ne, lookup_delete_ne by done. apply Hf.
Qed.

Lemma stats_filed_disconnected now pID p :
  stats_filed p → stats_filed (disconnected now pID p).
Proof.
  intros Hf. unfold disconnected.
  destruct (trackedPeers p !! pID) as [stats|] eqn:Ht; [|done].
  intros id peer. simpl. destruct (decide (id = pID)) as [->|Hne].
  - rewrite lookup_insert_eq, lookup_delete_eq. intros [?|[= <-]]; [done|].
    simpl. apply Hf. by left.
  - rewrite lookup_insert_ne, lookup_delete_ne by done. apply Hf.
Qed.

Lemma stats_filed_gc ld lt now p :
  stats_filed p → stats_filed (gc_cycle_with ld lt now p).
Proof.
  intros Hf id peer. destruct (gc_cycle_with_subset ld lt now p id peer) as [Ht Hd].
  intros [?|?]; apply Hf; [left; by apply Ht|right; by apply Hd].
Qed.

Lemma stats_filed_blockPeer block_err close_err pID p :
  stats_filed p → stats_filed (blockPeer block_err close_err pID p).2.
Proof.
  intros Hf id peer. simpl.
  intros [[_ ?]%lookup_delete_Some|[_ ?]%lookup_delete_Some]; apply Hf; first [by left|by right].
Qed.

Lemma stats_filed_score pID s p : stats_filed p → stats_filed (update_score pID s p).
Proof.
  intros Hf id peer. simpl. rewrite !lookup_alter_Some.
  intros [[(_ & x & Hx & ->)|[_ Hx]]|[(_ & x & Hx & ->)|[_ Hx]]]; simpl;
    apply Hf; first [by left|by right].
Qed.

Lemma stats_filed_steps store p : reachable store p → stats_filed p.
Proof.
  intros Hreach.
  induction Hreach as [|h pID p _ IH|now pID p _ IH|ld lt now p _ IH _ _
                       |block_err close_err pID p _ IH|pID s p _ IH].
  - intros id peer. simpl. rewrite !lookup_empty. by intros [?|?].
  - by apply stats_filed_connected.
  - by apply stats_filed_disconnected.
  - by apply stats_filed_gc.
  - by apply stats_filed_blockPeer.
  - by apply stats_filed_score.
Qed.

(** X11: in every state of a tracker, each stat of either map carries the
    identity it is filed under; [connected], [disconnected], a cycle of
    [gc] and [blockPeer] each keep it so. *)
Theorem stats_filed_reachable p :
  (∀ store, reachable store p → stats_filed p)
  ∧ (stats_filed p →
       (∀ h pID, stats_filed (connected h pID p))
       ∧ (∀ now pID, stats_filed (disconnected now pID p))
       ∧ (∀ ld lt now, stats_filed (gc_cycle_with ld lt now p))
       ∧ (∀ block_err close_err pID,
            stats_filed (blockPeer block_err close_err pID p).2)).
Proof.
  split; [intros store; apply stats_filed_steps|].
  intros Hf. repeat split; intros.
  - by apply stats_filed_connected.
  - by apply stats_filed_disconnected.
  - by apply stats_filed_gc.
  - by apply stats_filed_blockPeer.
Qed.

Lemma peers_disjoint_reachable store p : reachable store p → peers_disjoint p.
Proof.
  intros Hreach.
  induction Hreach as [|h pID p _ IH|now pID p _ IH|ld lt now p _ IH _ _
                       |block_err close_err pID p _ IH|pID s p _ IH].
  - apply peers_disjoint_new.
  - by apply peers_disjoint_connected.
  - by apply peers_disjoint_disconnected.
  - by apply peers_disjoint_gc.
  - by apply peers_disjoint_blockPeer.
  - by apply peers_disjoint_score.
Qed.

(** X12: in every state of a tracker, [peers()] returns one stat for each
    tracked peer and nothing else: a stat is in the slice exactly when it
    is the one tracked under its identity, and no peer of the slice is in
    [disconnectedPeers]. *)
Theorem peers_snapshot store l p :
  reachable store p →
  visit_of l (trackedPeers p) →
  length (peers_with l) = size (trackedPeers p)
  ∧ (∀ peer, peer ∈ peers_with l ↔ trackedPeers p !! peerID peer = Some peer)
  ∧ (∀ peer, peer ∈ peers_with l → disconnectedPeers p !! peerID peer = None).
Proof.
  intros Hreach Hl.
  pose proof (stats_filed_steps store p Hreach) as Hf.
  pose proof (peers_disjoint_reachable store p Hreach) as Hdisj.
  assert (Hmem : ∀ peer, peer ∈ peers_with l
                         ↔ trackedPeers p !! peerID peer = Some peer).
  { intros peer. unfold peers_with. rewrite list_elem_of_fmap. split.
    - intros ([id peer'] & -> & Hin). simpl.
      apply (visit_of_elem l (trackedPeers p)) in Hin; [|done].
      rewrite (Hf id peer'); [done|by left].
    - intros Hp. exists (peerID peer, peer). split; [done|].
      by apply (visit_of_elem l (trackedPeers p)). }
  split; [|split; [done|]].
  - unfold peers_with. rewrite length_fmap. unfold visit_of in Hl. rewrite Hl.
    apply length_map_to_list.
  - intros peer Hp. apply Hmem in Hp.
    unfold peers_disjoint in Hdisj. by eapply map_disjoint_Some_l.
Qed.

(** **** Cycles of gc *)

Lemma kept_unless_twice (P Q : peerStat → Prop)
    `{∀ x, Decision (P x)} `{∀ x, Decision (Q x)} o :
  (∀ x, P x → Q x) → kept_unless P (kept_unless Q o) = kept_unless Q o.
Proof.
  intros HPQ. destruct o as [peer|]; simpl; [|done].
  destruct (decide (Q peer)) as [|HQ]; simpl; [done|].
  rewrite decide_False; [done|]. intros HP. by apply HQ, HPQ.
Qed.

(** X13: a cycle of [gc] that follows another one, with a clock that is
    not ahead of the clock of the first, removes nothing: both maps are
    what the first cycle left. *)
Theorem gc_cycle_again ld lt ld' lt' now now' p :
  visit_of ld (disconnectedPeers p) →
  visit_of lt (trackedPeers p) →
  visit_of ld' (disconnectedPeers (gc_cycle_with ld lt now p)) →
  visit_of lt' (trackedPeers (gc_cycle_with ld lt now p)) →
  now' ≤ now →
  trackedPeers (gc_cycle_with ld' lt' now' (gc_cycle_with ld lt now p))
  = trackedPeers (gc_cycle_with ld lt now p)
  ∧ disconnectedPeers (gc_cycle_with ld' lt' now' (gc_cycle_with ld lt now p))
    = disconnectedPeers (gc_cycle_with ld lt now p).
Proof.
  intros Hld Hlt Hld' Hlt' Hnow.
  destruct (gc_cycle_with_fields ld' lt' now' (gc_cycle_with ld lt now p))
    as (-> & -> & _).
  split; apply map_eq; intros id.
  - rewrite (gc_tracked_lookup lt' _ [] id Hlt').
    destruct (gc_cycle_with_fields ld lt now p) as (-> & _ & _).
    rewrite (gc_tracked_lookup lt _ [] id Hlt). by apply kept_unless_twice.
  - rewrite (gc_disconnected_lookup ld' now' _ id Hld').
    destruct (gc_cycle_with_fields ld lt now p) as (_ & -> & _).
    rewrite (gc_disconnected_lookup ld now _ id Hld).
    apply (kept_unless_twice (λ peer, Before (pruneDeadline peer) now')
             (λ peer, Before (pruneDeadline peer) now)).
    unfold Before. intros x. lia.
Qed.

(** X14: a tracked peer that disconnects at time [now] and is still
    disconnected when a cycle of [gc] runs after [now + maxAwaitingTime]
    is in neither map after that cycle. *)
Theorem expired_peer_swept ld lt now now' pID stats p :
  trackedPeers p !! pID = Some stats →
  visit_of ld (disconnectedPeers (disconnected now pID p)) →
  Before (now + maxAwaitingTime) now' →
  untracked pID (gc_cycle_with ld lt now' (disconnected now pID p)).
Proof.
  intros Ht Hld Hlate.
  destruct (gc_cycle_with_fields ld lt now' (disconnected now pID p)) as (Hft & Hfd & _).
  unfold untracked. rewrite Hft, Hfd. split.
  - rewrite gc_tracked_lookup_gen, disconnected_untracks. by destruct (decide _).
  - rewrite (gc_disconnected_lookup ld now' _ pID Hld).
    unfold disconnected. rewrite Ht. simpl. rewrite lookup_insert_eq. simpl.
    by rewrite decide_True.
Qed.

(** **** track *)

Lemma track_seed_snoc conns h pID p :
  track_seed (conns ++ [(h, pID)]) p = connected h pID (track_seed conns p).
Proof. unfold track_seed. by rewrite foldl_snoc. Qed.

(** What holds of a new tracker after any number of [connected] calls. *)
Lemma track_seed_new_inv conns store :
  disconnectedPeers (track_seed conns (NewPeerTracker store)) = ∅
  ∧ (size (trackedPeers (track_seed conns (NewPeerTracker store))) ≤ length conns)%nat
  ∧ (size (trackedPeers (track_seed conns (NewPeerTracker store))) ≤ 101)%nat
  ∧ ∀ id peer,
      trackedPeers (track_seed conns (NewPeerTracker store)) !! id = Some peer →
      peer = new_stat id
      ∧ ∃ h, (h, id) ∈ conns ∧ host_ID h ≠ id
             ∧ existsb (λ transient : bool, transient) (ConnsToPeer h id) = false.
Proof.
  induction conns as [|[h pID] conns IH] using rev_ind.
  - simpl. split; [done|]. rewrite map_size_empty. split; [lia|]. split; [lia|].
    intros id peer. by rewrite lookup_empty.
  - rewrite track_seed_snoc, length_app. simpl.
    destruct IH as (Hd & Hlen & Hmax & Hstats).
    set (p := track_seed conns (NewPeerTracker store)) in *.
    destruct (connected_cases h pID p) as [->|(Hself & Htr & Hroom & ->)].
    + split; [done|]. split; [lia|]. split; [done|].
      intros id peer Hid. destruct (Hstats id peer Hid) as (-> & h' & Hin & Hg).
      split; [done|]. exists h'. split; [|done]. apply elem_of_app. by left.
    + simpl. rewrite Hd, delete_empty, lookup_empty. simpl. split; [done|].
      assert (size (trackedPeers p) ≤ 100)%nat as Hsmall.
      { destruct (decide (size (trackedPeers p) ≤ 100)%nat); [done|].
        exfalso. apply Hroom. unfold overfilled, maxPeerTrackerSize.
        rewrite Hd, map_size_empty. lia. }
      assert (size (<[pID := new_stat pID]> (trackedPeers p))
              ≤ S (size (trackedPeers p)))%nat as Hgrow.
      { rewrite map_size_insert. destruct (trackedPeers p !! pID); simpl; lia. }
      split; [lia|]. split; [lia|].
      intros id peer. destruct (decide (id = pID)) as [->|Hne].
      * rewrite lookup_insert_eq. intros [= <-].
        split; [done|]. exists h. split; [|done].
        apply elem_of_app. right. by apply list_elem_of_singleton.
      * rewrite lookup_insert_ne by done. intros Hid.
        destruct (Hstats id peer Hid) as (-> & h' & Hin & Hg).
        split; [done|]. exists h'. split; [|done]. apply elem_of_app. by left.
Qed.

Lemma connected_keeps_tracked h pID p id :
  is_Some (trackedPeers p !! id) → is_Some (trackedPeers (connected h pID p) !! id).
Proof.
  intros Hid. destruct (connected_cases h pID p) as [->|(_ & _ & _ & ->)]; [done|].
  simpl. apply lookup_insert_is_Some'. by right.
Qed.

(** X15: the connections [track] starts from, given to a new tracker: no
    peer is disconnected, at most 101 peers are tracked, each with a new
    stat of its own, and each is the remote peer of a connection that is
    not to the host itself and has nothing transient; with 101 connections
    or fewer, every such remote peer is tracked. *)
Theorem track_seed_new conns store :
  disconnectedPeers (track_seed conns (NewPeerTracker store)) = ∅
  ∧ (size (trackedPeers (track_seed conns (NewPeerTracker store))) ≤ 101)%nat
  ∧ (∀ id peer,
       trackedPeers (track_seed conns (NewPeerTracker store)) !! id = Some peer →
       peer = new_stat id
       ∧ ∃ h, (h, id) ∈ conns ∧ host_ID h ≠ id
              ∧ existsb (λ transient : bool, transient) (ConnsToPeer h id) = false)
  ∧ ((length conns ≤ 101)%nat →
     ∀ h id, (h, id) ∈ conns → host_ID h ≠ id →
       existsb (λ transient : bool, transient) (ConnsToPeer h id) = false →
       trackedPeers (track_seed conns (NewPeerTracker store)) !! id
       = Some (new_stat id)).
Proof.
  destruct (track_seed_new_inv conns store) as (Hd & _ & Hmax & Hstats).
  split; [done|]. split; [done|]. split; [done|].
  intros Hlen h id Hin Hself Htr.
  enough (is_Some (trackedPeers (track_seed conns (NewPeerTracker store)) !! id))
    as [peer Hpeer].
  { rewrite Hpeer. f_equal. by apply Hstats. }
  clear Hd Hmax Hstats. revert Hlen Hin.
  induction conns as [|[h' pID] conns IH] using rev_ind; intros Hlen Hin.
  { by apply elem_of_nil in Hin. }
  rewrite track_seed_snoc. rewrite length_app in Hlen. simpl in Hlen.
  apply elem_of_app in Hin as [Hin|Hin].
  - apply connected_keeps_tracked. apply IH; [lia|done].
  - apply list_elem_of_singleton in Hin. injection Hin as <- <-.
    destruct (track_seed_new_inv conns store) as (Hd & Hsize & _ & _).
    rewrite connected_past_guards; [| done | done |].
    + rewrite Hd, lookup_empty. simpl. rewrite lookup_insert_eq. by eexists.
    + unfold overfilled, maxPeerTrackerSize. rewrite Hd, map_size_empty. lia.
Qed.

Lemma track_event_keeps_untracked ev pID p :
  ev_Peer ev ≠ pID ∨ ev_Connectedness ev ≠ Connected →
  trackedPeers p !! pID = None →
  trackedPeers (track_event ev p) !! pID = None.
Proof.
  intros Hev Ht. unfold track_event.
  destruct (ev_Connectedness ev) eqn:Hc; try done.
  - destruct (decide (ev_Peer ev = pID)) as [<-|Hne]; [apply disconnected_untracks|].
    by destruct (disconnected_other (ev_now ev) (ev_Peer ev) p pID) as [-> _].
  - destruct Hev as [Hne|?]; [|done].
    by destruct (connected_other (ev_host ev) (ev_Peer ev) p pID) as [-> _].
Qed.

Lemma track_events_keep_untracked events pID p :
  Forall (λ ev, ev_Peer ev ≠ pID ∨ ev_Connectedness ev ≠ Connected) events →
  trackedPeers p !! pID = None →
  trackedPeers (track_events events p) !! pID = None.
Proof.
  revert p. induction events as [|ev events IH]; intros p Hevs Ht; [done|].
  apply Forall_cons in Hevs as [Hev Hevs]. simpl. apply IH; [done|].
  by apply track_event_keeps_untracked.
Qed.

(** X16: when the events [track] has read hold a [NotConnected] for a peer
    and no [Connected] for it afterwards, the peer is not tracked when the
    loop ends, whatever came before and whatever the other events are. *)
Theorem track_last_NotConnected conns before ev after close_err p :
  ev_Connectedness ev = NotConnected →
  Forall (λ ev', ev_Peer ev' ≠ ev_Peer ev ∨ ev_Connectedness ev' ≠ Connected) after →
  trackedPeers (track conns None (before ++ ev :: after) close_err p).2 !! ev_Peer ev
  = None.
Proof.
  intros Hev Hafter. unfold track. simpl. unfold track_events.
  rewrite foldl_app. simpl.
  apply (track_events_keep_untracked after); [done|].
  unfold track_event at 1. rewrite Hev. apply disconnected_untracks.
Qed.

(** **** Counting the peers *)

Lemma map_size_lookup_Some (m : gmap peer_ID peerStat) id peer :
  m !! id = Some peer → size m = S (size (delete id m)).
Proof.
  intros Hid. rewrite <- (insert_delete_id m id peer Hid) at 1.
  apply map_size_insert_None, lookup_delete_eq.
Qed.

(** X18: with no peer in both maps, [disconnected] and the [connected] of
    a disconnected peer keep the number of peers the tracker holds, moving
    one from a map to the other or nothing; the [connected] that passes the
    guards for a peer in neither map adds one. *)
Theorem moves_keep_count pID p :
  peers_disjoint p →
  (∀ now,
     (size (trackedPeers (disconnected now pID p))
      + size (disconnectedPeers (disconnected now pID p))
      = size (trackedPeers p) + size (disconnectedPeers p))%nat)
  ∧ (∀ h, is_Some (disconnectedPeers p !! pID) →
       (size (trackedPeers (connected h pID p))
        + size (disconnectedPeers (connected h pID p))
        = size (trackedPeers p) + size (disconnectedPeers p))%nat)
  ∧ (∀ h, untracked pID p → host_ID h ≠ pID →
       existsb (λ transient : bool, transient) (ConnsToPeer h pID) = false →
       ¬ overfilled p →
       (size (trackedPeers (connected h pID p))
        + size (disconnectedPeers (connected h pID p))
        = S (size (trackedPeers p) + size (disconnectedPeers p)))%nat).
Proof.
  unfold peers_disjoint. intros Hdisj. split; [|split].
  - intros now. unfold disconnected.
    destruct (trackedPeers p !! pID) as [stats|] eqn:Ht; [|done]. simpl.
    rewrite (map_size_lookup_Some _ _ _ Ht).
    rewrite map_size_insert_None by (by eapply map_disjoint_Some_l). lia.
  - intros h [stats Hd].
    destruct (connected_cases h pID p) as [->|(_ & _ & _ & ->)]; [done|]. simpl.
    rewrite (map_size_lookup_Some _ _ _ Hd).
    rewrite map_size_insert_None by (by eapply map_disjoint_Some_r). lia.
  - intros h [Ht Hd] Hself Htr Hroom. rewrite connected_past_guards by done.
    rewrite Hd. simpl. rewrite map_size_insert_None by done. lia.
Qed.

Lemma rewarded_reachable : reachable None rewarded.p2.
Proof. apply reach_score, reach_connected, reach_new. Qed.

Lemma other_peers_untouched_witness :
  trackedPeers (connected plain_host "b" rewarded.p2) !! "a"
  = trackedPeers rewarded.p2 !! "a".
Proof.
  destruct (other_peers_untouched "b" "a" rewarded.p2) as [Hconn _].
  - discriminate.
  - apply (Hconn plain_host).
Defined.

Lemma only_connected_adds_witness :
  untracked "z" (disconnected 5 "a" rewarded.p2).
Proof.
  destruct (only_connected_adds "z" rewarded.p2) as [_ Hstay].
  destruct Hstay as (_ & Hdisc & _).
  - split; vm_compute; reflexivity.
  - apply Hdisc.
Defined.

Lemma stats_filed_reachable_witness : stats_filed reconnect.p3.
Proof.
  destruct (stats_filed_reachable reconnect.p3) as [Hreach _].
  apply (Hreach None). apply reach_disconnected, rewarded_reachable.
Defined.

Lemma peers_snapshot_witness :
  length (peers rewarded.p2) = size (trackedPeers rewarded.p2).
Proof.
  apply (peers_snapshot None (map_to_list (trackedPeers rewarded.p2)) rewarded.p2).
  - apply rewarded_reachable.
  - apply visit_of_map_to_list.
Defined.

Lemma gc_cycle_again_witness :
  trackedPeers (gc_cycle 15 (gc_cycle 15 sweep.p)) = trackedPeers (gc_cycle 15 sweep.p)
  ∧ disconnectedPeers (gc_cycle 15 (gc_cycle 15 sweep.p))
    = disconnectedPeers (gc_cycle 15 sweep.p).
Proof.
  apply (gc_cycle_again (map_to_list (disconnectedPeers sweep.p))
           (map_to_list (trackedPeers sweep.p))
           (map_to_list (disconnectedPeers (gc_cycle 15 sweep.p)))
           (map_to_list (trackedPeers (gc_cycle 15 sweep.p))) 15 15 sweep.p).
  - apply visit_of_map_to_list.
  - apply visit_of_map_to_list.
  - apply visit_of_map_to_list.
  - apply visit_of_map_to_list.
  - lia.
Defined.

Lemma expired_peer_swept_witness :
  untracked "a" (gc_cycle (1001 + maxAwaitingTime) (disconnected 1000 "a" rewarded.p2)).
Proof.
  apply (expired_peer_swept
           (map_to_list (disconnectedPeers (disconnected 1000 "a" rewarded.p2)))
           (map_to_list (trackedPeers (disconnected 1000 "a" rewarded.p2)))
           1000 (1001 + maxAwaitingTime) "a"
           {| peerID := "a"; peerScore := score_two; pruneDeadline := zero_time |}
           rewarded.p2).
  - vm_compute. reflexivity.
  - apply visit_of_map_to_list.
  - unfold Before. lia.
Defined.

Lemma track_seed_new_witness :
  trackedPeers (track_seed seeding.conns (NewPeerTracker None)) !! "a"
  = Some (new_stat "a").
Proof.
  destruct (track_seed_new seeding.conns None) as (_ & _ & _ & Hall).
  apply (Hall ltac:(simpl; lia) plain_host "a").
  - unfold seeding.conns. apply elem_of_cons. right. apply elem_of_cons. right.
    apply elem_of_cons. by left.
  - discriminate.
  - reflexivity.
Defined.

Example track_seed_run :
  trackedPeers (track_seed seeding.conns (NewPeerTracker None))
  = {[ "a" := new_stat "a" ]}.
Proof. vm_compute. reflexivity. Qed.

Lemma track_last_NotConnected_witness :
  trackedPeers (track [] None flapping.events None (NewPeerTracker None)).2 !! "a" = None.
Proof.
  apply (track_last_NotConnected [] [flapping.connect "a"]
           {| ev_host := plain_host; ev_now := 1000; ev_Peer := "a";
              ev_Connectedness := NotConnected |}
           [flapping.connect "b";
            {| ev_host := plain_host; ev_now := 2000; ev_Peer := "a";
               ev_Connectedness := CanConnect |}]
           None (NewPeerTracker None)).
  - reflexivity.
  - constructor; [left; discriminate|].
    constructor; [right; discriminate|]. constructor.
Defined.

Example flapping_run :
  (track [] None flapping.events None (NewPeerTracker None)).2
  = {| trackedPeers := {[ "b" := new_stat "b" ]};
       disconnectedPeers :=
         {[ "a" := {| peerID := "a"; peerScore := defaultScore;
                      pruneDeadline := 1000 + maxAwaitingTime |} ]};
       pidstore := None |}.
Proof. vm_compute. reflexivity. Qed.

Lemma moves_keep_count_witness :
  (size (trackedPeers reconnect.p3) + size (disconnectedPeers reconnect.p3)
   = size (trackedPeers rewarded.p2) + size (disconnectedPeers rewarded.p2))%nat.
Proof.
  destruct (moves_keep_count "a" rewarded.p2) as [Hdisc _].
  - apply (peers_disjoint_reachable None), rewarded_reachable.
  - apply (Hdisc 1000).
Defined.

(** 102 connections to distinct peers: the last one is not tracked. *)
Example track_seed_full :
  size (trackedPeers
          (track_seed ((λ n, (plain_host, crowded.name n)) <$> seq 0 102)
                      (NewPeerTracker None)))
  = 101%nat.
Proof. vm_compute. reflexivity. Qed.

End p2p_props.

(** * Properties of the scripted subscriber *)
Module headertest_props.
Import headertest.

Section Subscriber_props.
Context {H : Type}.
Implicit Types (Headers : list H).

(** The deferred function drops the header that was returned, if any. *)
Lemma NextHeader_pops Headers :
  NextHeader Headers
  = (match Headers with [] => inr context_Canceled | h :: _ => inl h end,
     drop 1 Headers).
Proof. by destruct Headers as [|h [|h' Headers]]. Qed.

(** X17: [n] calls of [NextHeader] in a row return the first [n] headers
    in their order, [context.Canceled] taking the place of each header the
    subscriber does not have, and leave the headers after those. *)
Theorem NextHeader_times_spec n Headers :
  NextHeader_times n Headers
  = ((λ i, match Headers !! i with
           | Some h => inl h
           | None => inr context_Canceled
           end) <$> seq 0 n,
     drop n Headers).
Proof.
  revert Headers. induction n as [|n IH]; intros Headers; [done|].
  cbn [NextHeader_times]. rewrite NextHeader_pops, IH.
  rewrite drop_drop. cbn [seq fmap list_fmap]. f_equal. f_equal.
  - by destruct Headers.
  - rewrite <- fmap_S_seq, <- list_fmap_compose. apply list_fmap_ext.
    intros i j _. simpl. by rewrite lookup_drop.
Qed.

End Subscriber_props.

Example NextHeader_script :
  NextHeader_times 4 [10; 11]
  = ([inl 10; inl 11; inr context_Canceled; inr context_Canceled], []).
Proof. reflexivity. Qed.

End headertest_props.
